(** * chat-art: the chat utilities, the /api/chat proxy route, the article
      query and the FAQ matching core

    Shallow embedding of
      - [frontend/lib/chat.ts]        (modules [Chat] and [Client]),
      - [app/api/chat/route.ts]       (module [Route]),
      - [lib/query/articles.ts]       (module [Articles]),
      - [app/api/articles/route.ts]   (module [ArticlesRoute]),
      - [components/chat/chat-widget.tsx] (module [Widget]),
      - [prisma/seed.ts]              (module [Seed]),
    over a small model of the JavaScript values they handle (module [Js]),
    and of the FAQ matcher the documentation describes (module [Faq]),
    whose Python implementation is not part of the sources. *)

From Stdlib Require Import String Ascii DecimalString.
From Stdlib Require Import Bool Arith NArith ZArith QArith Lia.
From Stdlib Require Import Reals Lra.
From Stdlib Require Import List Permutation Sorted.
Import ListNotations.

Close Scope R_scope.
Close Scope Q_scope.
Open Scope nat_scope.

Set Warnings "-register-all".

(* ===================================================================== *)
(** ** JavaScript strings and numbers *)
(* ===================================================================== *)

Module Js.

(** A JavaScript string is a sequence of UTF-16 code units; [length] is the
    [.length] property. *)
Definition jsstring := list N.

(** String literals of the sources (all of them ASCII). *)
Definition lit (s : string) : jsstring :=
  map N_of_ascii (list_ascii_of_string s).

Fixpoint jsstring_eqb (a b : jsstring) : bool :=
  match a, b with
  | [], [] => true
  | x :: a', y :: b' => N.eqb x y && jsstring_eqb a' b'
  | _, _ => false
  end.

Definition in_range (lo hi c : N) : bool := N.leb lo c && N.leb c hi.

(** ECMAScript [WhiteSpace] and [LineTerminator] code units: what
    [String.prototype.trim] strips. *)
Definition isWhiteSpace (c : N) : bool :=
  in_range 9 13 c              (* TAB, LF, VT, FF, CR *)
  || N.eqb c 32                (* SPACE *)
  || N.eqb c 160               (* NO-BREAK SPACE *)
  || N.eqb c 5760              (* OGHAM SPACE MARK *)
  || in_range 8192 8202 c      (* EN QUAD .. HAIR SPACE *)
  || in_range 8232 8233 c      (* LINE and PARAGRAPH SEPARATOR *)
  || N.eqb c 8239              (* NARROW NO-BREAK SPACE *)
  || N.eqb c 8287              (* MEDIUM MATHEMATICAL SPACE *)
  || N.eqb c 12288             (* IDEOGRAPHIC SPACE *)
  || N.eqb c 65279.            (* ZERO WIDTH NO-BREAK SPACE *)

Fixpoint dropWhile (p : N -> bool) (s : jsstring) : jsstring :=
  match s with
  | [] => []
  | c :: rest => if p c then dropWhile p rest else s
  end.

Definition trimStart (s : jsstring) : jsstring := dropWhile isWhiteSpace s.

Definition trimEnd (s : jsstring) : jsstring :=
  rev (dropWhile isWhiteSpace (rev s)).

(** [s.trim()] *)
Definition trim (s : jsstring) : jsstring := trimEnd (trimStart s).

(** [s.startsWith(p)] *)
Fixpoint startsWith (s p : jsstring) {struct p} : bool :=
  match p, s with
  | [], _ => true
  | _ :: _, [] => false
  | y :: p', x :: s' => N.eqb x y && startsWith s' p'
  end.

(** [s.indexOf(p)], with [None] for the -1 of JavaScript. *)
Fixpoint indexOf (s p : jsstring) : option nat :=
  if startsWith s p then Some 0
  else match s with
       | [] => None
       | _ :: rest => option_map S (indexOf rest p)
       end.

(** [s.includes(p)] *)
Definition includes (s p : jsstring) : bool :=
  match indexOf s p with Some _ => true | None => false end.

(** [s.replace(p, r)] for a string pattern [p]: the first occurrence only.
    The replacement is inserted as it is; the two replacement texts of the
    sources (the empty string and a single space) hold no dollar sign, so
    no substitution pattern is ever expanded. *)
Definition replace (s p r : jsstring) : jsstring :=
  match indexOf s p with
  | None => s
  | Some i => firstn i s ++ r ++ skipn (i + length p) s
  end.

(** [parts.join(sep)] on an array of strings. *)
Fixpoint join (sep : jsstring) (parts : list jsstring) : jsstring :=
  match parts with
  | [] => []
  | [x] => x
  | x :: rest => x ++ sep ++ join sep rest
  end.

(** *** Code points

    Case conversion works on code points, not on code units: a surrogate
    pair is one character. *)
Definition isHighSurrogate (c : N) : bool := in_range 55296 56319 c.
Definition isLowSurrogate (c : N) : bool := in_range 56320 57343 c.

Fixpoint codePoints (s : jsstring) : list N :=
  match s with
  | [] => []
  | hi :: rest =>
      match rest with
      | lo :: rest' =>
          if isHighSurrogate hi && isLowSurrogate lo
          then (65536 + (hi - 55296) * 1024 + (lo - 56320))%N :: codePoints rest'
          else hi :: codePoints rest
      | [] => [hi]
      end
  end.

Definition encodeCodePoint (cp : N) : jsstring :=
  if N.ltb cp 65536 then [cp]
  else [(55296 + (cp - 65536) / 1024)%N; (56320 + (cp - 65536) mod 1024)%N].

(** [s.toUpperCase()]: every code point is replaced by its full uppercase
    mapping.  The mapping is the Unicode character database's
    (UnicodeData and the unconditional entries of SpecialCasing); it is no
    part of the sources and is a parameter here. *)
Definition toUpperCase (upperMap : N -> list N) (s : jsstring) : jsstring :=
  flat_map encodeCodePoint (flat_map upperMap (codePoints s)).

(** [s.toLowerCase()] on strings of Basic Latin and of the Greek letters
    from U+0391 to U+03CB: a capital letter becomes its small letter, and a capital
    sigma becomes the final small sigma where the condition Final_Sigma of
    SpecialCasing holds: it is preceded by a cased letter, then any number
    of case-ignorable characters, and is not followed by any number of
    case-ignorable characters, then a cased letter.  Elsewhere it becomes
    the small sigma. *)
Definition isCased (c : N) : bool :=
  in_range 65 90 c || in_range 97 122 c
  || in_range 913 929 c || in_range 931 939 c || in_range 940 971 c.

Definition isCaseIgnorable (c : N) : bool :=
  N.eqb c 39 || N.eqb c 46 || N.eqb c 58 || N.eqb c 94 || N.eqb c 96.

Definition lowerLetter (c : N) : N :=
  if in_range 65 90 c || in_range 913 929 c || in_range 931 939 c
  then (c + 32)%N else c.

Fixpoint casedAhead (s : jsstring) : bool :=
  match s with
  | [] => false
  | c :: rest => if isCaseIgnorable c then casedAhead rest else isCased c
  end.

Fixpoint lowerFrom (afterCased : bool) (s : jsstring) : jsstring :=
  match s with
  | [] => []
  | c :: rest =>
      (if N.eqb c 931
       then (if afterCased && negb (casedAhead rest) then 962%N else 963%N)
       else lowerLetter c)
      :: lowerFrom (if isCaseIgnorable c then afterCased else isCased c) rest
  end.

Definition toLowerCaseGreek (s : jsstring) : jsstring := lowerFrom false s.

(** What every uppercase mapping does on ASCII. *)
Definition asciiUpper (c : N) : N :=
  if in_range 97 122 c then (c - 32)%N else c.

Definition agrees_on_ascii (upperMap : N -> list N) : Prop :=
  forall c, (c < 128)%N -> upperMap c = [asciiUpper c].

(** *** Numbers

    A JavaScript number is a double: a finite value (a rational), an
    infinity or NaN.  The code below only compares numbers and truncates
    them to integers, which is exact. *)
Inductive jsnumber : Type :=
| Finite (q : Q)
| PosInfinity
| NegInfinity
| NaN.

Definition ofNat (n : nat) : jsnumber := Finite (inject_Z (Z.of_nat n)).

(** [a <= b] *)
Definition le (a b : jsnumber) : bool :=
  match a, b with
  | NaN, _ | _, NaN => false
  | NegInfinity, _ => true
  | _, PosInfinity => true
  | Finite x, Finite y => Qle_bool x y
  | PosInfinity, _ => false
  | Finite _, NegInfinity => false
  end.

(** An integer or an infinity, the result of ToIntegerOrInfinity. *)
Inductive intOrInf : Type :=
| IntVal (z : Z)
| IntPosInf
| IntNegInf.

(** ToIntegerOrInfinity: NaN is 0, a finite number is truncated towards 0. *)
Definition toIntegerOrInfinity (x : jsnumber) : intOrInf :=
  match x with
  | NaN => IntVal 0
  | PosInfinity => IntPosInf
  | NegInfinity => IntNegInf
  | Finite q => IntVal (Z.quot (Qnum q) (Z.pos (Qden q)))
  end.

(** [min(max(i, 0), len)] *)
Definition clampIndex (i : intOrInf) (len : nat) : nat :=
  match i with
  | IntNegInf => 0
  | IntPosInf => len
  | IntVal z => Nat.min (Z.to_nat (Z.max z 0)) len
  end.

(** [s.substring(start, end)]: both indices are clamped to [0, length] and
    swapped when start is the larger. *)
Definition substring (s : jsstring) (start end_ : jsnumber) : jsstring :=
  let len := length s in
  let finalStart := clampIndex (toIntegerOrInfinity start) len in
  let finalEnd := clampIndex (toIntegerOrInfinity end_) len in
  let from := Nat.min finalStart finalEnd in
  let to := Nat.max finalStart finalEnd in
  firstn (to - from) (skipn from s).

End Js.

(* ===================================================================== *)
(** ** frontend/lib/chat.ts *)
(* ===================================================================== *)

Module Chat.
Import Js.

(** [validateChatMessage]:
    [message.trim().length > 0 && message.length <= 1000] *)
Definition validateChatMessage (message : jsstring) : bool :=
  Nat.ltb 0 (length (trim message)) && Nat.leb (length message) 1000.

(** The callback of [sources.map(...)] in [formatChatSources]. *)
Definition formatSource (upperMap : N -> list N) (source : jsstring) : jsstring :=
  if startsWith source (lit "faq#") then
    let topic :=
      replace (toUpperCase upperMap (replace source (lit "faq#") (lit "")))
              (lit "-") (lit " ") in
    lit "FAQ: " ++ topic
  else if startsWith source (lit "system#") then lit "System"
  else source.

(** [formatChatSources]; [None] is a [null] or [undefined] argument, which
    the tests pass and the guard [!sources] catches. *)
Definition formatChatSources (upperMap : N -> list N)
    (sources : option (list jsstring)) : jsstring :=
  match sources with
  | None => lit ""
  | Some l =>
      if Nat.eqb (length l) 0 then lit ""
      else join (lit ", ") (map (formatSource upperMap) l)
  end.

(** [truncateMessage(message, maxLength)] *)
Definition truncateMessage (message : jsstring) (maxLength : jsnumber) : jsstring :=
  if le (ofNat (length message)) maxLength then message
  else substring message (ofNat 0) maxLength ++ lit "...".

(** The default value of the parameter [maxLength]. *)
Definition defaultMaxLength : jsnumber := ofNat 500.

(** *** The vocabulary of the specification of these functions *)

(** The number [x] is the natural number [n]. *)
Definition isNatural (x : jsnumber) (n : nat) : Prop :=
  match x with
  | Finite q => Qeq q (inject_Z (Z.of_nat n))
  | _ => False
  end.

(** The first hyphen of a string replaced by a space, later ones kept. *)
Fixpoint firstHyphenToSpace (s : jsstring) : jsstring :=
  match s with
  | [] => []
  | c :: rest => if N.eqb c 45 then 32%N :: rest else c :: firstHyphenToSpace rest
  end.

(** How one source is shown. *)
Inductive rendersAs (upperMap : N -> list N) : jsstring -> jsstring -> Prop :=
| render_faq topic :
    rendersAs upperMap (lit "faq#" ++ topic)
              (lit "FAQ: " ++ firstHyphenToSpace (toUpperCase upperMap topic))
| render_system rest :
    rendersAs upperMap (lit "system#" ++ rest) (lit "System")
| render_other source :
    startsWith source (lit "faq#") = false ->
    startsWith source (lit "system#") = false ->
    rendersAs upperMap source source.

End Chat.

(* ===================================================================== *)
(** ** app/api/chat/route.ts *)
(* ===================================================================== *)

Module Route.
Import Js.

(** *** Values, errors and the outside world *)

(** A number as [JSON.parse] gives it: a double.  [Double x] is a finite
    double, by its value, zero being the positive zero; the negative zero
    is the parse of [-0]; an infinity is the parse of a numeral too large
    for a double, such as [1e999]. *)
Inductive jsonNumber : Type :=
| Double (x : Q)
| NegativeZero
| Infinite (negative : bool).

(** A parsed JSON value, as [request.json()] and [response.json()] give
    it.  An object is its list of own properties. *)
Inductive json : Type :=
| JNull
| JBool (b : bool)
| JNumber (x : jsonNumber)
| JString (s : jsstring)
| JArray (items : list json)
| JObject (fields : list (jsstring * json)).

(** The value a reader gets back from the text [JSON.stringify] writes for
    a value: an infinity is written as [null] and the negative zero as
    [0]; every other number is written with digits that read back as the
    same double, and strings, arrays and objects keep their content and
    order. *)
Fixpoint serialise (value : json) : json :=
  match value with
  | JNumber (Infinite _) => JNull
  | JNumber NegativeZero => JNumber (Double 0)
  | JArray items => JArray (map serialise items)
  | JObject fields => JObject (map (fun kv => (fst kv, serialise (snd kv))) fields)
  | other => other
  end.

(** The values [JSON.stringify] writes as they are. *)
Fixpoint writtenAsIs (value : json) : bool :=
  match value with
  | JNumber (Double _) => true
  | JNumber _ => false
  | JArray items => forallb writtenAsIs items
  | JObject fields => forallb (fun kv => writtenAsIs (snd kv)) fields
  | _ => true
  end.

(** The double a JSON numeral is read as (StringToNumber): the numeral
    is given by its sign and its magnitude; the magnitude is rounded to
    the nearest double, ties to the even significand, a result of 2^1024
    or more being an infinity. *)
Definition roundHalfEven (a d : Z) : Z :=
  let q := (a / d)%Z in
  let r := (a mod d)%Z in
  if (2 * r <? d)%Z then q
  else if (d <? 2 * r)%Z then (q + 1)%Z
  else if Z.even q then q else (q + 1)%Z.

Definition floorLog2 (a d : Z) : Z :=
  let e := (Z.log2 a - Z.log2 d)%Z in
  if (0 <=? e)%Z
  then (if (d * 2 ^ e <=? a)%Z then e else e - 1)%Z
  else (if (d <=? a * 2 ^ (- e))%Z then e else e - 1)%Z.

Definition readNumeral (negative : bool) (magnitude : Q) : jsonNumber :=
  let a := Z.abs (Qnum magnitude) in
  let d := Z.pos (Qden magnitude) in
  let zero := if negative then NegativeZero else Double 0 in
  if (a =? 0)%Z then zero
  else
    let p := Z.max (floorLog2 a d - 52) (-1074) in
    let n := if (0 <=? p)%Z then roundHalfEven a (d * 2 ^ p)
             else roundHalfEven (a * 2 ^ (- p)) d in
    let signed := if negative then (- n)%Z else n in
    if (n =? 0)%Z then zero
    else if (0 <=? p)%Z then
      (if (2 ^ 1024 <=? n * 2 ^ p)%Z then Infinite negative
       else Double (inject_Z (signed * 2 ^ p)))
    else Double (Qred (Qmake signed (Z.to_pos (2 ^ (- p))))).

(** [obj[key]]; [None] is [undefined]. *)
Fixpoint getField (fields : list (jsstring * json)) (key : jsstring) : option json :=
  match fields with
  | [] => None
  | (k, v) :: rest => if jsstring_eqb k key then Some v else getField rest key
  end.

(** The classes of thrown values the [catch] block tells apart. *)
Inductive errorClass : Type :=
| ZodError
| TypeError
| SyntaxError
| PlainError.

Record jsError : Type := mkError {
  errClass : errorClass;
  errMessage : jsstring
}.

(** The outcome of an awaited call: a value, or a thrown error. *)
Inductive result (A : Type) : Type :=
| Ok (a : A)
| Throw (e : jsError).
Arguments Ok {A} a.
Arguments Throw {A} e.

(** The second argument of [fetch]. *)
Record fetchInit : Type := mkInit {
  method : jsstring;
  headers : list (jsstring * jsstring);
  body : jsstring
}.

Record fetchCall : Type := mkCall {
  url : jsstring;
  init : fetchInit
}.

(** What the handler reads of the upstream [Response]: [ok], [status] and
    the outcome of [response.json()]. *)
Record upstreamResponse : Type := mkUpstream {
  ok : bool;
  status : nat;
  jsonBody : result json
}.

(** Why [chatRequestSchema.parse] refuses a body. *)
Inductive zodIssue : Type :=
| BodyNotAnObject (received : json)
| MessageNotAString (received : option json)
| MessageTooSmall (text : jsstring).

(** Everything outside the handler: the environment variable, the network
    (the answer of [fetch] to each call) and how zod words the message of
    a [ZodError]. *)
Record world : Type := mkWorld {
  env_PYTHON_SERVICE_URL : option jsstring;
  fetchImpl : fetchCall -> result upstreamResponse;
  zodErrorMessage : zodIssue -> jsstring
}.

(** The request, through the one thing the handler does with it:
    [await request.json()]. *)
Record nextRequest : Type := mkRequest {
  requestJson : result json
}.

(** A response: its status, and its body as the value the text of the
    body reads as. *)
Record nextResponse : Type := mkResponse {
  responseStatus : nat;
  responseBody : json
}.

(** [NextResponse.json(data, { status })]: the body is the text
    [JSON.stringify(data)]; the status is 200 when no init is given. *)
Definition NextResponse_json (data : json) (status : option nat) : nextResponse :=
  mkResponse (match status with Some s => s | None => 200 end) (serialise data).

(** *** The monad of the handler

    A computation reads the world, may throw, and records the calls of
    [fetch] it makes, oldest first.  The [console] output of the handler
    goes nowhere the response or the upstream call depend on and is left
    out. *)
Definition M (A : Type) : Type :=
  world -> list fetchCall -> result A * list fetchCall.

Definition ret {A} (a : A) : M A := fun _ calls => (Ok a, calls).

Definition bind {A B} (m : M A) (k : A -> M B) : M B :=
  fun w calls =>
    match m w calls with
    | (Ok a, calls') => k a w calls'
    | (Throw e, calls') => (Throw e, calls')
    end.

Definition throw {A} (e : jsError) : M A := fun _ calls => (Throw e, calls).

(** [await] of a call whose outcome is known. *)
Definition await {A} (r : result A) : M A := fun _ calls => (r, calls).

Definition ask : M world := fun w calls => (Ok w, calls).

(** [try { body } catch (error) { handler }] *)
Definition tryCatch {A} (body : M A) (handler : jsError -> M A) : M A :=
  fun w calls =>
    match body w calls with
    | (Ok a, calls') => (Ok a, calls')
    | (Throw e, calls') => handler e w calls'
    end.

(** [await fetch(url, init)] *)
Definition fetch (u : jsstring) (i : fetchInit) : M upstreamResponse :=
  fun w calls =>
    let c := mkCall u i in (fetchImpl w c, calls ++ [c]).

Declare Scope route_scope.
Delimit Scope route_scope with route.
Notation "x <- m ;; k" := (bind m (fun x => k))
  (at level 61, m at next level, right associativity) : route_scope.
Local Open Scope route_scope.

(** *** JSON.stringify of the forwarded body *)

Definition hexDigit (d : N) : N :=
  if N.ltb d 10 then (48 + d)%N else (87 + d)%N.

Definition unicodeEscape (c : N) : jsstring :=
  lit "\u" ++ [hexDigit (c / 4096); hexDigit ((c / 256) mod 16);
               hexDigit ((c / 16) mod 16); hexDigit (c mod 16)].

Definition quoteChar : N := 34%N.

(** One code point of QuoteJSONString. *)
Definition quoteCodePoint (cp : N) : jsstring :=
  if N.eqb cp 8 then lit "\b"
  else if N.eqb cp 9 then lit "\t"
  else if N.eqb cp 10 then lit "\n"
  else if N.eqb cp 12 then lit "\f"
  else if N.eqb cp 13 then lit "\r"
  else if N.eqb cp quoteChar then lit "\" ++ [quoteChar]
  else if N.eqb cp 92 then lit "\\"
  else if N.ltb cp 32 || in_range 55296 57343 cp then unicodeEscape cp
  else encodeCodePoint cp.

Definition quoteJSONString (s : jsstring) : jsstring :=
  [quoteChar] ++ flat_map quoteCodePoint (codePoints s) ++ [quoteChar].

(** [JSON.stringify({ message })] *)
Definition stringifyChatMessage (message : jsstring) : jsstring :=
  lit "{" ++ quoteJSONString (lit "message") ++ lit ":"
    ++ quoteJSONString message ++ lit "}".

(** *** Reading the forwarded body back

    What the receiver of the call finds in its body: a reader of JSON
    strings, and of a text of the form [{"message":"..."}].  The reader
    follows the JSON grammar (ECMA-404), not the handler; it serves to
    state what the handler forwards. *)
Definition hexValue (c : N) : option N :=
  if in_range 48 57 c then Some (c - 48)%N
  else if in_range 97 102 c then Some (c - 87)%N
  else if in_range 65 70 c then Some (c - 55)%N
  else None.

(** The character a two-character escape stands for. *)
Definition unescape (e : N) : option N :=
  if N.eqb e 34 then Some 34%N
  else if N.eqb e 92 then Some 92%N
  else if N.eqb e 47 then Some 47%N
  else if N.eqb e 98 then Some 8%N
  else if N.eqb e 102 then Some 12%N
  else if N.eqb e 110 then Some 10%N
  else if N.eqb e 114 then Some 13%N
  else if N.eqb e 116 then Some 9%N
  else None.

Definition prepend (c : N) (r : option (jsstring * jsstring))
    : option (jsstring * jsstring) :=
  match r with
  | Some (s, rest) => Some (c :: s, rest)
  | None => None
  end.

(** The characters of a JSON string, read from after its opening quote up
    to its closing quote, and the text after the closing quote. *)
Fixpoint readString (text : jsstring) : option (jsstring * jsstring) :=
  match text with
  | [] => None
  | c :: rest =>
      if N.eqb c 34 then Some ([], rest)
      else if N.eqb c 92 then
        match rest with
        | [] => None
        | e :: rest1 =>
            if N.eqb e 117 then
              match rest1 with
              | h3 :: h2 :: h1 :: h0 :: rest2 =>
                  match hexValue h3, hexValue h2, hexValue h1, hexValue h0 with
                  | Some x3, Some x2, Some x1, Some x0 =>
                      prepend (x3 * 4096 + x2 * 256 + x1 * 16 + x0)%N
                              (readString rest2)
                  | _, _, _, _ => None
                  end
              | _ => None
              end
            else
              match unescape e with
              | Some c' => prepend c' (readString rest1)
              | None => None
              end
        end
      else if N.ltb c 32 then None
      else prepend c (readString rest)
  end.

(** The message of a text [{"message":"..."}]: an object with the one
    key [message], holding a string. *)
Definition readMessageObject (text : jsstring) : option jsstring :=
  let opening := lit "{" ++ [34%N] ++ lit "message" ++ [34%N] ++ lit ":" ++ [34%N] in
  if startsWith text opening then
    match readString (skipn (length opening) text) with
    | Some (message, rest) =>
        if jsstring_eqb rest (lit "}") then Some message else None
    | None => None
    end
  else None.

(** A string of JavaScript is made of 16-bit code units. *)
Definition codeUnits (s : jsstring) : Prop :=
  Forall (fun c => (c < 65536)%N) s.

(** The decimal digits of a status code, for the template literal. *)
Definition digitsOf (n : nat) : jsstring :=
  lit (NilEmpty.string_of_uint (Nat.to_uint n)).

(** *** The handler *)

(** [chatRequestSchema.parse(body)] for
    [z.object({ message: z.string().min(1, "Message cannot be empty") })]:
    the message, or the issue of the [ZodError] it throws. *)
Definition chatRequestSchema_check (body : json) : zodIssue + jsstring :=
  match body with
  | JObject fields =>
      match getField fields (lit "message") with
      | Some (JString message) =>
          if Nat.leb 1 (length message) then inr message
          else inl (MessageTooSmall (lit "Message cannot be empty"))
      | other => inl (MessageNotAString other)
      end
  | other => inl (BodyNotAnObject other)
  end.

Definition chatRequestSchema_parse (body : json) : M jsstring :=
  match chatRequestSchema_check body with
  | inr message => ret message
  | inl issue =>
      w <- ask ;; throw (mkError ZodError (zodErrorMessage w issue))
  end.

(** [process.env.PYTHON_SERVICE_URL || "http://localhost:8001"] *)
Definition PYTHON_SERVICE_URL (w : world) : jsstring :=
  match env_PYTHON_SERVICE_URL w with
  | Some u => if Nat.eqb (length u) 0 then lit "http://localhost:8001" else u
  | None => lit "http://localhost:8001"
  end.

Definition chatInit (message : jsstring) : fetchInit :=
  mkInit (lit "POST")
         [(lit "Content-Type", lit "application/json")]
         (stringifyChatMessage message).

(** The reply sent when the Python service cannot be reached. *)
Definition mockResponseBody : json :=
  JObject
    [(lit "answer",
      JString (lit "I'm sorry, the chat service is currently unavailable. Please try again later."));
     (lit "sources", JArray [JString (lit "system#unavailable")])].

Definition internalErrorBody : json :=
  JObject [(lit "error", JString (lit "Internal server error"))].

Definition invalidRequestBody (details : jsstring) : json :=
  JObject [(lit "error", JString (lit "Invalid request"));
           (lit "details", JString details)].

Definition isClass (c : errorClass) (e : jsError) : bool :=
  match c, errClass e with
  | ZodError, ZodError | TypeError, TypeError
  | SyntaxError, SyntaxError | PlainError, PlainError => true
  | _, _ => false
  end.

(** The [catch] block: the response it returns for the error caught. *)
Definition errorResponse (error : jsError) : nextResponse :=
  if isClass ZodError error then
    NextResponse_json (invalidRequestBody (errMessage error)) (Some 400)
  else if isClass TypeError error && includes (errMessage error) (lit "fetch") then
    NextResponse_json mockResponseBody None
  else
    NextResponse_json internalErrorBody (Some 500).

(** The call of [fetch] that forwards a message. *)
Definition chatCall (w : world) (message : jsstring) : fetchCall :=
  mkCall (PYTHON_SERVICE_URL w ++ lit "/chat") (chatInit message).

(** [export async function POST(request)] *)
Definition POST (request : nextRequest) : M nextResponse :=
  tryCatch
    (body <- await (requestJson request) ;;
     message <- chatRequestSchema_parse body ;;
     w <- ask ;;
     response <- fetch (PYTHON_SERVICE_URL w ++ lit "/chat") (chatInit message) ;;
     if negb (ok response) then
       throw (mkError PlainError
                (lit "Python service responded with status: "
                   ++ digitsOf (status response)))
     else
       data <- await (jsonBody response) ;;
       ret (NextResponse_json data None))
    (fun error => ret (errorResponse error)).

(** Running the handler from a state where no call has been made: the
    response, and the calls of [fetch] made on the way. *)
Definition runPOST (w : world) (request : nextRequest) : result nextResponse * list fetchCall :=
  POST request w [].

(** *** The vocabulary of the specification of the handler *)

(** A request whose body is a JSON object. *)
Definition requestWith (fields : list (jsstring * json)) : nextRequest :=
  mkRequest (Ok (JObject fields)).

(** The error is a [TypeError] whose message contains "fetch". *)
Definition isFetchTypeError (e : jsError) : Prop :=
  errClass e = TypeError /\ includes (errMessage e) (lit "fetch") = true.

(** During the handling of the request, [fetch] was called and threw [e]. *)
Definition fetchThrew (w : world) (request : nextRequest) (e : jsError) : Prop :=
  exists c, In c (snd (runPOST w request)) /\ fetchImpl w c = Throw e.

(** During the handling of the request, [fetch] was called and resolved
    with the response [up]. *)
Definition fetchResolved (w : world) (request : nextRequest)
    (up : upstreamResponse) : Prop :=
  exists c, In c (snd (runPOST w request)) /\ fetchImpl w c = Ok up.

(** The handler answered with the mock fallback and status 200. *)
Definition answersMock (w : world) (request : nextRequest) : Prop :=
  fst (runPOST w request) = Ok (mkResponse 200 mockResponseBody).

(** A world for examples: the Python service answers every call with the
    body [data] and the status [code]. *)
Definition serviceAnswering (code : nat) (data : json) : world :=
  mkWorld None
          (fun _ => Ok (mkUpstream (Nat.leb 200 code && Nat.leb code 299) code (Ok data)))
          (fun _ => lit "zod").

(** A world for examples: the Python service cannot be reached. *)
Definition serviceDown : world :=
  mkWorld None
          (fun _ => Throw (mkError TypeError (lit "fetch failed")))
          (fun _ => lit "zod").

End Route.

(* ===================================================================== *)
(** ** lib/query/articles.ts *)
(* ===================================================================== *)

Module Articles.
Import Js.

(** A row of the [Article] table, with the fields the seed script fills;
    [date] is the instant of the [DateTime], in milliseconds. *)
Record Article : Type := mkArticle {
  id : jsstring;
  title : jsstring;
  date : Z;
  summary : jsstring
}.

(** The type of the parameter [sort]. *)
Inductive sortOrder : Type :=
| asc
| desc.

(** Two dates in the order [orderBy: { date: sort }] asks for. *)
Definition inOrder (sort : sortOrder) (a b : Article) : Prop :=
  match sort with
  | asc => (date a <= date b)%Z
  | desc => (date b <= date a)%Z
  end.

(** What [prisma.article.findMany({ orderBy: { date: sort } })] promises
    over a table: every row, once, ordered by date.  The order of rows of
    equal date is the database's choice. *)
Definition answersOrderBy (table : list Article)
    (findMany : sortOrder -> list Article) : Prop :=
  forall sort,
    Permutation (findMany sort) table /\ Sorted (inOrder sort) (findMany sort).

(** The callback of [articles.filter(...)]. *)
Definition matchesQuery (toLowerCase : jsstring -> jsstring)
    (queryLower : jsstring) (article : Article) : bool :=
  includes (toLowerCase (title article)) queryLower
  || includes (toLowerCase (summary article)) queryLower.

(** [getArticles(query, sort)].  The Prisma client and
    [String.prototype.toLowerCase] are parameters; the simulated delay of
    one second is not modelled.  [if (query)] holds for every string but
    the empty one. *)
Definition getArticles (findMany : sortOrder -> list Article)
    (toLowerCase : jsstring -> jsstring)
    (query : jsstring) (sort : sortOrder) : list Article :=
  let articles := findMany sort in
  if negb (Nat.eqb (length query) 0) then
    let queryLower := toLowerCase query in
    filter (matchesQuery toLowerCase queryLower) articles
  else articles.

(** The default values of the two parameters. *)
Definition defaultQuery : jsstring := lit "".
Definition defaultSort : sortOrder := desc.

(** A client for examples: it sorts the table by insertion, so rows of
    equal date keep the order of the table. *)
Definition dateLeb (sort : sortOrder) (a b : Article) : bool :=
  match sort with
  | asc => Z.leb (date a) (date b)
  | desc => Z.leb (date b) (date a)
  end.

Fixpoint insertByDate (sort : sortOrder) (a : Article) (l : list Article) : list Article :=
  match l with
  | [] => [a]
  | b :: rest =>
      if dateLeb sort a b then a :: l else b :: insertByDate sort a rest
  end.

Definition sortingClient (table : list Article) (sort : sortOrder) : list Article :=
  fold_right (insertByDate sort) [] table.

(** Three of the articles of the seed script, for examples. *)
Definition sampleTable : list Article :=
  [ mkArticle (lit "a2") (lit "Marge brute vs marge nette") 1736899200000
              (lit "Comprendre les niveaux de marge et leurs usages.");
    mkArticle (lit "a6") (lit "Working Capital") 1731628800000
              (lit "Besoin en fonds de roulement et gestion du cycle d'exploitation.");
    mkArticle (lit "a8") (lit "Free Cash Flow (FCF)") 1736035200000
              (lit "Cash flow libre apr" ++ [232%N] ++ lit "s investissements n"
                 ++ [233%N] ++ lit "cessaires.") ].

(** Lowercasing of the ASCII letters, for examples. *)
Definition asciiLower (s : jsstring) : jsstring :=
  map (fun c => if in_range 65 90 c then (c + 32)%N else c) s.

(** The test of the filter, as a proposition: once [text] and [query] are
    lowercased, each on its own, the query is a substring of the text.
    The specification calls it containing the query when case is ignored;
    the two differ where lowercasing depends on the context (the final
    sigma). *)
Definition containsIgnoringCase (toLowerCase : jsstring -> jsstring)
    (text query : jsstring) : Prop :=
  exists before after,
    toLowerCase text = before ++ toLowerCase query ++ after.

End Articles.

(* ===================================================================== *)
(** ** The FAQ matching core (python-service, described in the
       documentation only) *)
(* ===================================================================== *)

Module Faq.

(** The Python service (its matcher, selector and knowledge base) is not
    among the sources; the READMEs and the spec describe it.  Everything in
    this module is modelled from those words, over the real numbers. *)

(** Modelled from the spec: the record FAQEntry of the data model (the
    Python service and its faq.json are not part of the sources). *)
Record FAQEntry : Type := mkEntry {
  id : string;
  question : string;
  answer : string;
  source_tag : string
}.

(** Modelled from the spec: a token is a word of a normalised text. *)
Definition token : Type := string.

(** Modelled from the spec: a term of the vocabulary is a unigram or a
    bigram, a sequence of one or two tokens. *)
Definition term : Type := list token.

Definition term_eq_dec : forall a b : term, {a = b} + {a <> b} :=
  list_eq_dec string_dec.

(** Modelled from the spec: contiguous 2-word sequences. *)
Fixpoint bigrams (ts : list token) : list term :=
  match ts with
  | [] => []
  | a :: rest =>
      match rest with
      | [] => []
      | b :: _ => [a; b] :: bigrams rest
      end
  end.

(** Modelled from the spec: the unigrams and bigrams of a token sequence. *)
Definition terms_of (ts : list token) : list term :=
  map (fun t => [t]) ts ++ bigrams ts.

(** Modelled from the spec: the one error the numeric code could raise.  A
    computation either gives a value or raises. *)
Inductive faqError : Type :=
| DivisionByZero.

(** Modelled from the spec: a value, or the error raised. *)
Inductive fallible (A : Type) : Type :=
| Done (a : A)
| Raised (e : faqError).
Arguments Done {A} a.
Arguments Raised {A} e.

(** Modelled from the spec: sequencing of computations that may raise
    (the exceptions of the missing Python code). *)
Definition andThen {A B} (m : fallible A) (k : A -> fallible B) : fallible B :=
  match m with
  | Done a => k a
  | Raised e => Raised e
  end.

Declare Scope faq_scope.
Delimit Scope faq_scope with faq.
Notation "x <- m ;; k" := (andThen m (fun x => k))
  (at level 61, m at next level, right associativity) : faq_scope.
Local Open Scope faq_scope.

(** Modelled from the spec: a loop over a list, raising as soon as one
    step raises. *)
Fixpoint forEach {A B} (f : A -> fallible B) (l : list A) : fallible (list B) :=
  match l with
  | [] => Done []
  | a :: rest =>
      b <- f a ;;
      bs <- forEach f rest ;;
      Done (b :: bs)
  end.

(** Modelled from the spec: division, which raises on a zero divisor as
    the division of the implementation language does. *)
Definition divide (x y : R) : fallible R :=
  if Req_dec_T y 0%R then Raised DivisionByZero else Done (x / y)%R.

(** Modelled from the spec: the dot product of two weight vectors. *)
Fixpoint dot (u v : list R) : R :=
  match u, v with
  | x :: u', y :: v' => (x * y + dot u' v')%R
  | _, _ => 0%R
  end.

(** Modelled from the spec: the L2 norm of a weight vector. *)
Definition magnitude (v : list R) : R := sqrt (dot v v).

(** Modelled from the spec: L2 normalisation; a zero-magnitude vector is
    left as it is instead of being divided. *)
Definition l2_normalize (v : list R) : fallible (list R) :=
  if Req_dec_T (magnitude v) 0%R then Done v
  else forEach (fun x => divide x (magnitude v)) v.

(** Modelled from the spec: cosine similarity, defined as 0 when either
    vector has zero magnitude. *)
Definition cosine_similarity (u v : list R) : fallible R :=
  if Req_dec_T (magnitude u) 0%R then Done 0%R
  else if Req_dec_T (magnitude v) 0%R then Done 0%R
  else divide (dot u v) (magnitude u * magnitude v)%R.

(** Modelled from the spec: the configuration; the threshold and the
    vocabulary cap are settings with documented defaults. *)
Record Config : Type := mkConfig {
  similarity_threshold : R;
  max_features : nat
}.

Definition default_config : Config := mkConfig (3 / 10)%R 5000.

Definition with_threshold (t : R) (cfg : Config) : Config :=
  mkConfig t (max_features cfg).

(** Modelled from the spec: what the fit phase retains. *)
Record Model : Type := mkModel {
  vocabulary : list term;
  idf_weights : list R;
  fitted : list (FAQEntry * list R)
}.

(** Modelled from the spec: the best entry and its score. *)
Record MatchResult : Type := mkMatch {
  entry : FAQEntry;
  score : R
}.

(** Modelled from the spec: the outcome of the selector. *)
Inductive Outcome : Type :=
| Answered (answer : string) (source_tag : string)
| NoMatch.

(** Modelled from the spec: the selector, [Answered] iff
    [score >= threshold]. *)
Definition select (m : MatchResult) (threshold : R) : Outcome :=
  if Rle_dec threshold (score m)
  then Answered (answer (entry m)) (source_tag (entry m))
  else NoMatch.

(** Modelled from the spec: the maximum score, the earliest entry winning
    a tie (a later entry replaces the best only when strictly better). *)
Fixpoint argmax (scored : list (FAQEntry * R)) : option MatchResult :=
  match scored with
  | [] => None
  | (e, s) :: rest =>
      match argmax rest with
      | Some later => if Rlt_dec s (score later) then Some later else Some (mkMatch e s)
      | None => Some (mkMatch e s)
      end
  end.

Section Matcher.

(** Normalisation and tokenisation (lowercase, split on word boundaries)
    and the policy that truncates an oversized vocabulary: the spec leaves
    both to the implementation. *)
Variable tokenize : string -> list token.
Variable cap_vocabulary : nat -> list term -> list term.

(** Modelled from the spec: fit phase, step 1, and query phase, step 1:
    the terms of a text. *)
Definition doc_terms (text : string) : list term := terms_of (tokenize text).

(** Modelled from the spec: fit phase, step 2. *)
Definition build_vocabulary (cfg : Config) (kb : list FAQEntry) : list term :=
  let observed := nodup term_eq_dec (flat_map (fun e => doc_terms (question e)) kb) in
  if Nat.leb (length observed) (max_features cfg) then observed
  else cap_vocabulary (max_features cfg) observed.

(** Modelled from the spec: term frequency counts the occurrences of the
    term in the text. *)
Definition term_frequency (t : term) (ts : list term) : nat :=
  count_occ term_eq_dec ts t.

(** Modelled from the spec: the number of questions containing the term. *)
Definition document_frequency (kb : list FAQEntry) (t : term) : nat :=
  length (filter (fun e => if in_dec term_eq_dec t (doc_terms (question e))
                           then true else false) kb).

(** Modelled from the spec: the smoothed IDF,
    [log((1 + N) / (1 + df)) + 1]. *)
Definition idf (kb : list FAQEntry) (t : term) : fallible R :=
  ratio <- divide (1 + INR (length kb))%R (1 + INR (document_frequency kb t))%R ;;
  Done (ln ratio + 1)%R.

(** Modelled from the spec: the TF-IDF weights of a text over the
    vocabulary, before normalisation. *)
Definition weigh (vocab : list term) (idfs : list R) (ts : list term) : list R :=
  map (fun tw => (INR (term_frequency (fst tw) ts) * snd tw)%R) (combine vocab idfs).

(** Modelled from the spec: the fit phase. *)
Definition fit (cfg : Config) (kb : list FAQEntry) : fallible Model :=
  let vocab := build_vocabulary cfg kb in
  idfs <- forEach (idf kb) vocab ;;
  vectors <- forEach (fun e =>
                        v <- l2_normalize (weigh vocab idfs (doc_terms (question e))) ;;
                        Done (e, v)) kb ;;
  Done (mkModel vocab idfs vectors).

(** Modelled from the spec: query phase, steps 1 to 3. *)
Definition project (m : Model) (text : string) : fallible (list R) :=
  l2_normalize (weigh (vocabulary m) (idf_weights m) (doc_terms text)).

(** Modelled from the spec: query phase, step 4. *)
Definition score_all (m : Model) (qv : list R) : fallible (list (FAQEntry * R)) :=
  forEach (fun ev => s <- cosine_similarity qv (snd ev) ;; Done (fst ev, s)) (fitted m).

(** Modelled from the spec: the query phase; [None] when the knowledge
    base has no entry. *)
Definition match_query (m : Model) (text : string) : fallible (option MatchResult) :=
  qv <- project m text ;;
  scored <- score_all m qv ;;
  Done (argmax scored).

(** Modelled from the spec: the record logged per query. *)
Record LogRecord : Type := mkLog {
  timestamp : string;
  raw_query : string;
  chosen_id : option string;
  logged_score : option R
}.

(** Modelled from the spec: the running service, the fitted model with the
    configuration, and the log written so far. *)
Record Service : Type := mkService {
  config : Config;
  model : Model;
  log : list LogRecord
}.

(** Modelled from the spec: the matcher is fitted once, at startup, on
    the loaded knowledge base. *)
Definition startup (cfg : Config) (kb : list FAQEntry) : fallible Service :=
  m <- fit cfg kb ;;
  Done (mkService cfg m []).

(** Modelled from the spec: what a call gives back, the best match and
    the selector's outcome. *)
Record Reply : Type := mkReply {
  best : option MatchResult;
  outcome : Outcome
}.

(** Modelled from the spec: the selector applied with the configured
    threshold; no entry at all is a typed absence. *)
Definition decide_outcome (cfg : Config) (b : option MatchResult) : Outcome :=
  match b with
  | Some m => select m (similarity_threshold cfg)
  | None => NoMatch
  end.

(** Modelled from the spec: [answer_query], at time [now]; the service
    after the call differs by one log record. *)
Definition answer_query (now : string) (message : string) (svc : Service)
    : fallible Reply * Service :=
  match match_query (model svc) message with
  | Raised e => (Raised e, svc)
  | Done b =>
      let o := decide_outcome (config svc) b in
      let chosen := match o, b with
                    | Answered _ _, Some m => Some (id (entry m))
                    | _, _ => None
                    end in
      (Done (mkReply b o),
       mkService (config svc) (model svc)
                 (log svc ++ [mkLog now message chosen (option_map score b)]))
  end.

(** Modelled from the spec: the service after a sequence of calls, each
    with its time. *)
Fixpoint serve (calls : list (string * string)) (svc : Service) : Service :=
  match calls with
  | [] => svc
  | (now, message) :: rest => serve rest (snd (answer_query now message svc))
  end.

(** As the specification words it: no term of the text is in the vocabulary of
    the model. *)
Definition outOfVocabulary (m : Model) (text : string) : Prop :=
  forall t, In t (doc_terms text) -> ~ In t (vocabulary m).

End Matcher.

(** A tokenizer for examples: ASCII letters lowercased, words split at
    every other character. *)
Definition lowerAscii (a : ascii) : ascii :=
  let n := nat_of_ascii a in
  if Nat.leb 65 n && Nat.leb n 90 then ascii_of_nat (n + 32) else a.

Definition isWordChar (a : ascii) : bool :=
  let n := nat_of_ascii a in
  (Nat.leb 97 n && Nat.leb n 122) || (Nat.leb 48 n && Nat.leb n 57).

Fixpoint splitWords (s : string) (current : string) : list token :=
  match s with
  | EmptyString => if string_dec current EmptyString then [] else [current]
  | String a rest =>
      let c := lowerAscii a in
      if isWordChar c then splitWords rest (current ++ String c EmptyString)%string
      else if string_dec current EmptyString then splitWords rest EmptyString
      else current :: splitWords rest EmptyString
  end.

Definition sample_tokenize (s : string) : list token := splitWords s EmptyString.

(** A truncation policy for examples: the first terms observed. *)
Definition keep_first (cap : nat) (observed : list term) : list term :=
  firstn cap observed.

(** Modelled from the spec: the entry of the concrete scenario among the
    testable properties. *)
Definition ebitdaEntry : FAQEntry :=
  mkEntry "ebitda" "What is EBITDA?" "EBITDA is ..." "faq#ebitda".

End Faq.

(* ===================================================================== *)
(** ** prisma/seed.ts *)
(* ===================================================================== *)

Module Seed.
Import Js Articles.

(** The source files are UTF-8; a string literal of the sources that holds
    accented letters is written here as it is there and decoded to the
    code units JavaScript sees. *)
Fixpoint utf8CodePoints (bytes : list N) : list N :=
  match bytes with
  | [] => []
  | b :: rest =>
      if N.ltb b 128 then b :: utf8CodePoints rest
      else if N.ltb b 224 then
        match rest with
        | c :: rest' => ((b - 192) * 64 + (c - 128))%N :: utf8CodePoints rest'
        | [] => []
        end
      else if N.ltb b 240 then
        match rest with
        | c :: d :: rest' =>
            ((b - 224) * 4096 + (c - 128) * 64 + (d - 128))%N :: utf8CodePoints rest'
        | _ => []
        end
      else
        match rest with
        | c :: d :: e :: rest' =>
            ((b - 240) * 262144 + (c - 128) * 4096 + (d - 128) * 64 + (e - 128))%N
              :: utf8CodePoints rest'
        | _ => []
        end
  end.

Definition utf8 (s : string) : jsstring :=
  flat_map encodeCodePoint (utf8CodePoints (lit s)).

(** The array [articles] of [main]; [new Date('YYYY-MM-DD')] is midnight
    UTC of that day, in milliseconds since the epoch. *)
Definition articles : list Article :=
  [ mkArticle (lit "a1") (lit "Qu'est-ce que l'EBITDA ?") 1730505600000
      (utf8 "Définition et intérêt pour l'analyse de performance.");
    mkArticle (lit "a2") (lit "Marge brute vs marge nette") 1736899200000
      (lit "Comprendre les niveaux de marge et leurs usages.");
    mkArticle (lit "a3") (utf8 "Flux de trésorerie opérationnel") 1733788800000
      (utf8 "Analyse du cash flow des opérations courantes.");
    mkArticle (lit "a4") (utf8 "Ratio de liquidité générale") 1729555200000
      (utf8 "Mesure de la capacité à honorer ses dettes court terme.");
    mkArticle (lit "a5") (lit "Return on Equity (ROE)") 1737331200000
      (utf8 "Rentabilité des capitaux propres investis.");
    mkArticle (lit "a6") (lit "Working Capital") 1731628800000
      (lit "Besoin en fonds de roulement et gestion du cycle d'exploitation.");
    mkArticle (lit "a7") (lit "Dette nette et levier financier") 1727654400000
      (lit "Comprendre l'endettement et son impact sur la valorisation.");
    mkArticle (lit "a8") (lit "Free Cash Flow (FCF)") 1736035200000
      (utf8 "Cash flow libre après investissements nécessaires.");
    mkArticle (lit "a9") (lit "Price to Earnings Ratio") 1733011200000
      (utf8 "Valorisation boursière par rapport aux bénéfices.");
    mkArticle (lit "a10") (lit "Goodwill et actifs incorporels") 1728518400000
      (lit "Traitement comptable des acquisitions et survaleur.") ].

(** The [Article] table: its rows, [id] being the primary key. *)
Definition table : Type := list Article.

Definition hasId (key : jsstring) (row : Article) : bool := jsstring_eqb (id row) key.

(** [prisma.article.findUnique({ where: { id } })] *)
Definition findUnique (key : jsstring) (rows : table) : option Article :=
  find (hasId key) rows.

(** [prisma.article.upsert({ where: { id }, update, create })]: the row of
    that id is updated when there is one, and [create] is inserted when
    there is none.  The database is taken to answer; its failures, which
    make [main] exit with code 1, are not modelled. *)
Definition upsert (key : jsstring) (update : Article -> Article) (create : Article)
    (rows : table) : table :=
  match findUnique key rows with
  | Some _ => map (fun row => if hasId key row then update row else row) rows
  | None => rows ++ [create]
  end.

(** [update: {}] changes no field. *)
Definition emptyUpdate (row : Article) : Article := row.

(** The loop of [main] over an array of articles. *)
Definition seedWith (toSeed : list Article) (rows : table) : table :=
  fold_left (fun db article => upsert (id article) emptyUpdate article db) toSeed rows.

(** [main] *)
Definition main (rows : table) : table := seedWith articles rows.

(** The articles of [toSeed] whose id is not among [present], the first of
    each id only. *)
Fixpoint missingFrom (toSeed : list Article) (present : list jsstring) : list Article :=
  match toSeed with
  | [] => []
  | article :: rest =>
      if existsb (jsstring_eqb (id article)) present then missingFrom rest present
      else article :: missingFrom rest (present ++ [id article])
  end.

End Seed.

(* ===================================================================== *)
(** ** app/api/articles/route.ts *)
(* ===================================================================== *)

Module ArticlesRoute.
Import Js Route Articles.

(** [request.nextUrl.searchParams]: the pairs of the query string, in
    their order. *)
Definition searchParams : Type := list (jsstring * jsstring).

(** [searchParams.get(name)]: the first value of that name; [None] is
    [null]. *)
Fixpoint searchParamsGet (params : searchParams) (name : jsstring) : option jsstring :=
  match params with
  | [] => None
  | (k, v) :: rest => if jsstring_eqb k name then Some v else searchParamsGet rest name
  end.

(** [value || fallback] for a value that is a string or [null]. *)
Definition orElse (value : option jsstring) (fallback : jsstring) : jsstring :=
  match value with
  | Some v => if Nat.eqb (length v) 0 then fallback else v
  | None => fallback
  end.

(** Why [querySchema.parse] refuses its input: the only check that can
    fail on two strings is the enumeration of [sort]. *)
Inductive queryIssue : Type :=
| InvalidEnumValue (received : jsstring).

(** The parsed parameters. *)
Record queryParams : Type := mkParams {
  paramQuery : jsstring;
  paramSort : sortOrder
}.

(** [querySchema.parse({ query, sort })] on two strings, for
    [z.object({ query: z.string().optional().default(""),
                sort: z.enum(["asc", "desc"]).optional().default("desc") })]. *)
Definition querySchema_check (query sort : jsstring) : queryIssue + queryParams :=
  if jsstring_eqb sort (lit "asc") then inr (mkParams query asc)
  else if jsstring_eqb sort (lit "desc") then inr (mkParams query desc)
  else inl (InvalidEnumValue sort).

(** Everything outside the handler: the database behind the Prisma client
    (the rows it answers [findMany] with, or the error it throws),
    [String.prototype.toLowerCase], and how zod words a [ZodError]. *)
Record articlesWorld : Type := mkArticlesWorld {
  findManyImpl : sortOrder -> result (list Article);
  toLowerCaseImpl : jsstring -> jsstring;
  queryErrorMessage : queryIssue -> jsstring
}.

(** [await getArticles(query, sort)] in that world, with the queries made
    to the database. *)
Definition getArticlesIn (w : articlesWorld) (query : jsstring) (sort : sortOrder)
    : result (list Article) * list sortOrder :=
  match findManyImpl w sort with
  | Ok rows => (Ok (getArticles (fun _ => rows) (toLowerCaseImpl w) query sort), [sort])
  | Throw e => (Throw e, [sort])
  end.

(** The body of a response: the articles, or an error object. *)
Inductive articlesBody : Type :=
| ArticleRows (rows : list Article)
| ErrorObject (value : json).

Record articlesResponse : Type := mkArticlesResponse {
  articlesStatus : nat;
  articlesBodyOf : articlesBody
}.

Definition invalidParametersBody (details : jsstring) : json :=
  JObject [(lit "error", JString (lit "Invalid parameters"));
           (lit "details", JString details)].

(** The [try] block. *)
Definition tryGET (w : articlesWorld) (params : searchParams)
    : result (list Article) * list sortOrder :=
  match querySchema_check (orElse (searchParamsGet params (lit "query")) (lit ""))
                          (orElse (searchParamsGet params (lit "sort")) (lit "desc")) with
  | inr p => getArticlesIn w (paramQuery p) (paramSort p)
  | inl issue => (Throw (mkError ZodError (queryErrorMessage w issue)), [])
  end.

(** The [catch] block. *)
Definition catchGET (error : jsError) : articlesResponse :=
  if isClass ZodError error then
    mkArticlesResponse 400 (ErrorObject (invalidParametersBody (errMessage error)))
  else
    mkArticlesResponse 500 (ErrorObject internalErrorBody).

(** [export async function GET(request)]: the response, and the queries
    made to the database. *)
Definition GET (w : articlesWorld) (params : searchParams)
    : articlesResponse * list sortOrder :=
  match tryGET w params with
  | (Ok articles, queries) => (mkArticlesResponse 200 (ArticleRows articles), queries)
  | (Throw error, queries) => (catchGET error, queries)
  end.

(** A world for examples: the database cannot be read. *)
Definition databaseDown : articlesWorld :=
  mkArticlesWorld (fun _ => Throw (mkError PlainError (lit "database is locked")))
                  asciiLower (fun _ => lit "zod").

(** The text of a sort order in the query string. *)
Definition sortName (sort : sortOrder) : jsstring :=
  match sort with
  | asc => lit "asc"
  | desc => lit "desc"
  end.

(** A world over a table: the sorting client, ASCII lowercasing. *)
Definition worldOver (table : list Article) : articlesWorld :=
  mkArticlesWorld (fun sort => Ok (sortingClient table sort)) asciiLower
                  (fun _ => lit "zod").

End ArticlesRoute.

(* ===================================================================== *)
(** ** frontend/lib/chat.ts: the functions that reach outside *)
(* ===================================================================== *)

Module Client.
Import Js Route.

(** What [sendChatMessage] reads of the [Response] of [/api/chat]. *)
Record apiResponse : Type := mkApiResponse {
  apiOk : bool;
  apiStatus : nat;
  apiJson : result json
}.

(** The browser around the chat functions: the answer of [fetch] to each
    call, how a finite number is printed (Number::toString), and the message of
    the [TypeError] thrown when a property of [null] is read. *)
Record browser : Type := mkBrowser {
  apiFetch : fetchCall -> result apiResponse;
  numberToString : Q -> jsstring;
  nullReadMessage : jsstring -> jsstring
}.

(** [value.key] for a parsed JSON value and one of the keys the code reads
    ([error], [answer], [sources]): reading [null] throws; no string,
    number, boolean or array has such a property. *)
Definition getProperty (b : browser) (value : json) (key : jsstring)
    : result (option json) :=
  match value with
  | JNull => Throw (mkError TypeError (nullReadMessage b key))
  | JObject fields => Ok (getField fields key)
  | _ => Ok None
  end.

(** ToBoolean, on a JSON value or [undefined]. *)
Definition toBoolean (value : option json) : bool :=
  match value with
  | None => false
  | Some JNull => false
  | Some (JBool flag) => flag
  | Some (JNumber (Double x)) => negb (Qeq_bool x 0)
  | Some (JNumber NegativeZero) => false
  | Some (JNumber (Infinite _)) => true
  | Some (JString s) => negb (Nat.eqb (length s) 0)
  | Some (JArray _) => true
  | Some (JObject _) => true
  end.

(** ToString, on a JSON value: an array prints its elements separated by
    commas, [null] elements as nothing; an object prints as
    [[object Object]]. *)
Fixpoint toString (b : browser) (value : json) : jsstring :=
  match value with
  | JNull => lit "null"
  | JBool true => lit "true"
  | JBool false => lit "false"
  | JNumber (Double x) => numberToString b x
  | JNumber NegativeZero => lit "0"
  | JNumber (Infinite false) => lit "Infinity"
  | JNumber (Infinite true) => lit "-Infinity"
  | JString s => s
  | JArray items =>
      join (lit ",")
           (map (fun item => match item with
                             | JNull => lit ""
                             | _ => toString b item
                             end) items)
  | JObject _ => lit "[object Object]"
  end.

(** The call of [fetch] made by [sendChatMessage]. *)
Definition apiCall (message : jsstring) : fetchCall :=
  mkCall (lit "/api/chat")
         (mkInit (lit "POST")
                 [(lit "Content-Type", lit "application/json")]
                 (stringifyChatMessage message)).

Definition networkErrorBody : json :=
  JObject [(lit "error", JString (lit "Network error"))].

(** The branch [if (!response.ok)]: it always throws. *)
Definition throwForStatus (b : browser) (response : apiResponse) : jsError :=
  let error := match apiJson response with
               | Ok value => value
               | Throw _ => networkErrorBody
               end in
  match getProperty b error (lit "error") with
  | Throw e => e
  | Ok field =>
      mkError PlainError
        (match field with
         | Some value =>
             if toBoolean field then toString b value
             else lit "HTTP error! status: " ++ digitsOf (apiStatus response)
         | None => lit "HTTP error! status: " ++ digitsOf (apiStatus response)
         end)
  end.

(** [sendChatMessage(message)]: what the promise settles with, and the
    calls of [fetch] made. *)
Definition sendChatMessage (b : browser) (message : jsstring)
    : result json * list fetchCall :=
  let call := apiCall message in
  (match apiFetch b call with
   | Throw e => Throw e
   | Ok response =>
       if negb (apiOk response) then Throw (throwForStatus b response)
       else apiJson response
   end,
   [call]).

(** The parameter [type] of [generateMessageId]. *)
Inductive messageType : Type :=
| user
| bot.

Definition typeText (type : messageType) : jsstring :=
  match type with
  | user => lit "user"
  | bot => lit "bot"
  end.

(** [s.substr(start, length)] for two natural numbers. *)
Definition substr (s : jsstring) (start len : nat) : jsstring :=
  firstn len (skipn start s).

(** The decimal of an integer, as a template literal prints it. *)
Definition decimalOf (z : Z) : jsstring :=
  lit (NilEmpty.string_of_int (Z.to_int z)).

(** [generateMessageId(type)], given what [Date.now()] and
    [Math.random().toString(36)] return. *)
Definition generateMessageId (type : messageType) (now : Z) (random36 : jsstring)
    : jsstring :=
  typeText type ++ lit "-" ++ decimalOf now ++ lit "-" ++ substr random36 2 9.

(** How the browser sees a response of the route handler: [ok] is a
    status from 200 to 299, and the body reads back as the value the
    handler serialised. *)
Definition asApiResponse (r : nextResponse) : apiResponse :=
  mkApiResponse (Nat.leb 200 (responseStatus r) && Nat.leb (responseStatus r) 299)
                (responseStatus r)
                (Ok (responseBody r)).

(** The call for [message] is served by the route handler running in the
    world [w]: the handler reads the object [{ message }] the client
    serialised, and the client gets the handler's response. *)
Definition servedBy (w : world) (b : browser) (message : jsstring) : Prop :=
  match fst (runPOST w (requestWith [(lit "message", JString message)])) with
  | Ok r => apiFetch b (apiCall message) = Ok (asApiResponse r)
  | Throw e => apiFetch b (apiCall message) = Throw e
  end.

(** A browser for examples: every call is served by the route handler in
    the world [w], for the message [message]. *)
Definition browserOver (w : world) (message : jsstring) : browser :=
  mkBrowser
    (fun _ => match fst (runPOST w (requestWith [(lit "message", JString message)])) with
              | Ok r => Ok (asApiResponse r)
              | Throw e => Throw e
              end)
    (fun _ => lit "0")
    (fun key => lit "Cannot read properties of null").

End Client.

(* ===================================================================== *)
(** ** components/chat/chat-widget.tsx *)
(* ===================================================================== *)

Module Widget.
Import Js Route Client.

(** An element of [state.messages].  [content] and [sources] hold what
    the code puts there, whatever the response held: a JSON value, or
    [None] for [undefined] (the user's message has no [sources]). *)
Record chatEntry : Type := mkEntry {
  entryId : jsstring;
  entryType : messageType;
  entryContent : option json;
  entrySources : option json;
  entryTimestamp : Z
}.

(** [ChatWidgetState] *)
Record widgetState : Type := mkState {
  messages : list chatEntry;
  isLoading : bool;
  error : option jsstring
}.

(** The two pieces of state of the component. *)
Record widget : Type := mkWidget {
  state : widgetState;
  inputMessage : jsstring
}.

(** [useState] initial values. *)
Definition initialWidget : widget :=
  mkWidget (mkState [] false None) (lit "").

(** What the clock and the random generator return during a call of
    [sendMessage]: for the user's message, then for the bot's. *)
Record readings : Type := mkReadings {
  userNow : Z;
  userRandom : jsstring;
  userDate : Z;
  botNow : Z;
  botRandom : jsstring;
  botDate : Z
}.

(** The three functional updates passed to [setState]. *)
Definition addUserMessage (userMessage : chatEntry) (prev : widgetState) : widgetState :=
  mkState (messages prev ++ [userMessage]) true None.

Definition addBotMessage (botMessage : chatEntry) (prev : widgetState) : widgetState :=
  mkState (messages prev ++ [botMessage]) false (error prev).

Definition failWith (message : jsstring) (prev : widgetState) : widgetState :=
  mkState (messages prev) false (Some message).

Inductive update : Type :=
| AddUserMessage (userMessage : chatEntry)
| AddBotMessage (botMessage : chatEntry)
| FailWith (message : jsstring).

Definition applyUpdate (u : update) (prev : widgetState) : widgetState :=
  match u with
  | AddUserMessage m => addUserMessage m prev
  | AddBotMessage m => addBotMessage m prev
  | FailWith message => failWith message prev
  end.

(** The state after a sequence of updates, in the order React applies
    them. *)
Definition applyUpdates (us : list update) (prev : widgetState) : widgetState :=
  fold_left (fun st u => applyUpdate u st) us prev.

Definition userEntry (r : readings) (message : jsstring) : chatEntry :=
  mkEntry (generateMessageId user (userNow r) (userRandom r)) user
          (Some (JString message)) None (userDate r).

(** The bot's entry from the data of the response; reading a property of
    [null] throws inside the [try] block. *)
Definition botEntry (b : browser) (r : readings) (data : json) : result chatEntry :=
  match getProperty b data (lit "answer") with
  | Throw e => Throw e
  | Ok answer =>
      match getProperty b data (lit "sources") with
      | Throw e => Throw e
      | Ok sources =>
          Ok (mkEntry (generateMessageId bot (botNow r) (botRandom r)) bot
                      answer sources (botDate r))
      end
  end.

(** The update made when the request has settled.  Every value thrown in
    this model is an [Error], so the message shown is [error.message]. *)
Definition settleUpdate (b : browser) (r : readings) (settled : result json) : update :=
  match settled with
  | Throw e => FailWith (errMessage e)
  | Ok data =>
      match botEntry b r data with
      | Ok botMessage => AddBotMessage botMessage
      | Throw e => FailWith (errMessage e)
      end
  end.

(** [sendMessage(message)], run to its end with no other update in
    between: the widget afterwards, and the calls of [fetch] made. *)
Definition sendMessage (b : browser) (r : readings) (message : jsstring) (w : widget)
    : widget * list fetchCall :=
  if Nat.eqb (length (trim message)) 0 then (w, [])
  else
    let started := addUserMessage (userEntry r message) (state w) in
    let (settled, calls) := sendChatMessage b message in
    (mkWidget (applyUpdate (settleUpdate b r settled) started) (lit ""), calls).

(** [handleSubmit(e)] *)
Definition handleSubmit (b : browser) (r : readings) (w : widget)
    : widget * list fetchCall :=
  if Chat.validateChatMessage (inputMessage w) then sendMessage b r (inputMessage w) w
  else (w, []).

(** [disabled] of the Send button. *)
Definition sendDisabled (w : widget) : bool :=
  isLoading (state w) || negb (Chat.validateChatMessage (inputMessage w)).

(** Readings for examples. *)
Definition sampleReadings : readings :=
  mkReadings 1736899200000 (lit "0.4fzyo82mvyr") 1736899200000
             1736899201000 (lit "0.a1b2c3d4e5f") 1736899201000.

End Widget.

(* ===================================================================== *)
(** * Properties *)
(* ===================================================================== *)

(** ** Strings *)

Section StringFacts.
Import Js.

Lemma jsstring_eqb_eq (a b : jsstring) : jsstring_eqb a b = true <-> a = b.
Proof.
  revert b; induction a as [|x a IH]; intros [|y b]; simpl; split;
    try congruence; try reflexivity.
  - rewrite andb_true_iff, N.eqb_eq, IH. intros [-> ->]; reflexivity.
  - intros E; injection E as -> ->.
    rewrite N.eqb_refl. simpl. apply IH. reflexivity.
Qed.

Lemma dropWhile_split (p : N -> bool) (s : jsstring) :
  exists pre, s = pre ++ dropWhile p s /\ forallb p pre = true.
Proof.
  induction s as [|c s [pre [E F]]]; simpl.
  - exists []. split; reflexivity.
  - destruct (p c) eqn:Pc.
    + exists (c :: pre). simpl. rewrite Pc, F. split; [f_equal; exact E | reflexivity].
    + exists []. split; reflexivity.
Qed.

Lemma dropWhile_head (p : N -> bool) (s : jsstring) c rest :
  dropWhile p s = c :: rest -> p c = false.
Proof.
  induction s as [|x s IH]; simpl; [discriminate|].
  destruct (p x) eqn:Px; [exact IH|].
  intros E; injection E as -> _. exact Px.
Qed.

Lemma dropWhile_all (p : N -> bool) (s : jsstring) :
  forallb p s = true -> dropWhile p s = [].
Proof.
  induction s as [|x s IH]; simpl; [reflexivity|].
  rewrite andb_true_iff. intros [-> H]. apply IH, H.
Qed.

Lemma forallb_rev (p : N -> bool) (s : jsstring) :
  forallb p (rev s) = forallb p s.
Proof.
  induction s as [|x s IH]; simpl; [reflexivity|].
  rewrite forallb_app, IH. simpl. rewrite andb_true_r. apply andb_comm.
Qed.

Lemma trimEnd_split (s : jsstring) :
  exists post, s = trimEnd s ++ post /\ forallb isWhiteSpace post = true.
Proof.
  unfold trimEnd.
  destruct (dropWhile_split isWhiteSpace (rev s)) as [pre [E F]].
  exists (rev pre). split.
  - rewrite <- rev_app_distr, <- E, rev_involutive. reflexivity.
  - rewrite forallb_rev. exact F.
Qed.

Lemma trimEnd_last (s r : jsstring) c :
  trimEnd s = r ++ [c] -> isWhiteSpace c = false.
Proof.
  unfold trimEnd. intros E.
  apply (f_equal (@rev N)) in E. rewrite rev_involutive, rev_app_distr in E.
  simpl in E. exact (dropWhile_head _ _ _ _ E).
Qed.

(** [trim] removes a run of white space at each end, and what is left
    neither starts nor ends with white space. *)
Lemma trim_spec (s : jsstring) :
  exists pre post,
    s = pre ++ trim s ++ post
    /\ forallb isWhiteSpace pre = true
    /\ forallb isWhiteSpace post = true
    /\ (forall c r, trim s = c :: r -> isWhiteSpace c = false)
    /\ (forall r c, trim s = r ++ [c] -> isWhiteSpace c = false).
Proof.
  unfold trim, trimStart.
  destruct (dropWhile_split isWhiteSpace s) as [pre [E F]].
  destruct (trimEnd_split (dropWhile isWhiteSpace s)) as [post [E' F']].
  exists pre, post. repeat split; try assumption.
  - rewrite <- E'. exact E.
  - intros c r H. rewrite H in E'. simpl in E'.
    exact (dropWhile_head _ _ _ _ E').
  - intros r c H. exact (trimEnd_last _ _ _ H).
Qed.

Lemma trim_empty_iff (s : jsstring) :
  trim s = [] <-> forallb isWhiteSpace s = true.
Proof.
  destruct (trim_spec s) as [pre [post [E [F [F' [H _]]]]]]. split.
  - intros T. rewrite T in E. rewrite E. simpl.
    rewrite forallb_app, F, F'. reflexivity.
  - intros A. destruct (trim s) as [|c r] eqn:T; [reflexivity|].
    rewrite E in A. rewrite !forallb_app in A. simpl in A.
    rewrite (H c r eq_refl) in A.
    rewrite andb_false_r in A. simpl in A. discriminate.
Qed.

Lemma trim_nonempty_iff (s : jsstring) :
  trim s <> [] <-> exists c, In c s /\ isWhiteSpace c = false.
Proof.
  rewrite trim_empty_iff. split.
  - intros H. destruct (forallb isWhiteSpace s) eqn:A; [congruence|].
    clear H. induction s as [|x s IH]; simpl in A; [discriminate|].
    destruct (isWhiteSpace x) eqn:X.
    + destruct (IH A) as [c [I W]]. exists c. split; [right; exact I | exact W].
    + exists x. split; [left; reflexivity | exact X].
  - intros [c [I W]] A. rewrite forallb_forall in A.
    rewrite (A c I) in W. discriminate.
Qed.

End StringFacts.

Section SearchFacts.
Import Js.

Lemma startsWith_spec (s p : jsstring) :
  startsWith s p = true <-> exists rest, s = p ++ rest.
Proof.
  revert s; induction p as [|y p IH]; intros s; simpl.
  - split; [intros _; exists s; reflexivity | reflexivity].
  - destruct s as [|x s]; simpl.
    + split; [discriminate | intros [rest E]; discriminate].
    + rewrite andb_true_iff, N.eqb_eq, IH. split.
      * intros [-> [rest ->]]. exists rest. reflexivity.
      * intros [rest E]. injection E as -> ->. split; [reflexivity | exists rest; reflexivity].
Qed.

Lemma startsWith_app (p rest : jsstring) : startsWith (p ++ rest) p = true.
Proof. apply startsWith_spec. exists rest. reflexivity. Qed.

Lemma indexOf_unfold (s p : jsstring) :
  indexOf s p =
  if startsWith s p then Some 0
  else match s with
       | [] => None
       | _ :: rest => option_map S (indexOf rest p)
       end.
Proof. destruct s; reflexivity. Qed.

Lemma indexOf_prefix (s p : jsstring) :
  startsWith s p = true -> indexOf s p = Some 0.
Proof. intros H. rewrite indexOf_unfold, H. reflexivity. Qed.

(** [indexOf] finds an occurrence, at the index it returns. *)
Lemma indexOf_sound (s p : jsstring) i :
  indexOf s p = Some i ->
  exists before after, s = before ++ p ++ after /\ length before = i.
Proof.
  revert i; induction s as [|x s IH]; intros i; rewrite indexOf_unfold.
  - destruct (startsWith [] p) eqn:P; [|discriminate].
    intros E; injection E as <-. apply startsWith_spec in P as [rest E].
    exists [], rest. split; [exact E | reflexivity].
  - destruct (startsWith (x :: s) p) eqn:P.
    + intros E; injection E as <-. apply startsWith_spec in P as [rest E].
      exists [], rest. split; [exact E | reflexivity].
    + destruct (indexOf s p) as [j|] eqn:J; simpl; [|discriminate].
      intros E; injection E as <-.
      destruct (IH j eq_refl) as [before [after [E L]]].
      exists (x :: before), after. simpl. rewrite <- E, L. split; reflexivity.
Qed.

(** [indexOf] misses no occurrence. *)
Lemma indexOf_complete (before p after : jsstring) :
  indexOf (before ++ p ++ after) p <> None.
Proof.
  induction before as [|x before IH]; rewrite indexOf_unfold.
  - simpl. rewrite startsWith_app. discriminate.
  - destruct (startsWith ((x :: before) ++ p ++ after) p); [discriminate|].
    simpl. destruct (indexOf (before ++ p ++ after) p); [discriminate | contradiction].
Qed.

Lemma includes_spec (s p : jsstring) :
  includes s p = true <-> exists before after, s = before ++ p ++ after.
Proof.
  unfold includes. split.
  - destruct (indexOf s p) as [i|] eqn:I; [|discriminate]. intros _.
    destruct (indexOf_sound _ _ _ I) as [before [after [E _]]].
    exists before, after. exact E.
  - intros [before [after ->]].
    pose proof (indexOf_complete before p after) as H.
    destruct (indexOf (before ++ p ++ after) p); [reflexivity | contradiction].
Qed.

(** Replacing a prefix drops it. *)
Lemma replace_prefix (p rest r : jsstring) :
  replace (p ++ rest) p r = r ++ rest.
Proof.
  unfold replace. rewrite (indexOf_prefix _ _ (startsWith_app p rest)).
  simpl. rewrite skipn_app, skipn_all, Nat.sub_diag. reflexivity.
Qed.

(** Replacing the pattern "-" by " " is replacing the first hyphen. *)
Lemma replace_hyphen (s : jsstring) :
  replace s (lit "-") (lit " ") = Chat.firstHyphenToSpace s.
Proof.
  change (lit "-") with [45%N]. change (lit " ") with [32%N].
  unfold replace. induction s as [|c s IH]; [reflexivity|].
  rewrite indexOf_unfold. simpl startsWith. simpl Chat.firstHyphenToSpace.
  rewrite andb_true_r. destruct (N.eqb c 45); [reflexivity|].
  destruct (indexOf s [45%N]) as [i|]; simpl.
  - rewrite <- IH. reflexivity.
  - rewrite <- IH. reflexivity.
Qed.

Lemma ascii_not_surrogate (c : N) : (c < 128)%N -> isHighSurrogate c = false.
Proof.
  intros H. unfold isHighSurrogate, in_range.
  apply andb_false_iff. left. apply N.leb_gt. lia.
Qed.

Lemma codePoints_ascii (s : jsstring) :
  Forall (fun c => (c < 128)%N) s -> codePoints s = s.
Proof.
  induction 1 as [|c s C _ IH]; [reflexivity|].
  simpl. rewrite IH, (ascii_not_surrogate _ C). destruct s; reflexivity.
Qed.

Lemma asciiUpper_small (c : N) : (c < 128)%N -> (asciiUpper c < 128)%N.
Proof. unfold asciiUpper. destruct (in_range 97 122 c); lia. Qed.

(** On an ASCII string [toUpperCase] is the letter-by-letter map. *)
Lemma toUpperCase_ascii (upperMap : N -> list N) (s : jsstring) :
  agrees_on_ascii upperMap ->
  Forall (fun c => (c < 128)%N) s ->
  toUpperCase upperMap s = map asciiUpper s.
Proof.
  intros A F. unfold toUpperCase. rewrite (codePoints_ascii _ F).
  induction F as [|c s C _ IH]; [reflexivity|].
  simpl. rewrite (A c C). simpl. rewrite IH.
  unfold encodeCodePoint at 1.
  pose proof (asciiUpper_small _ C) as U.
  destruct (N.ltb_spec (asciiUpper c) 65536); [reflexivity | lia].
Qed.

End SearchFacts.

(** ** frontend/lib/chat.ts *)

Section ChatFacts.
Import Js Chat.

Lemma nonempty_length (s : jsstring) : 0 < length s <-> s <> [].
Proof. destruct s; simpl; split; try lia; congruence. Qed.

(** C2: [validateChatMessage m] is true exactly when [m], trimmed of the
    white space at its two ends, is not empty and the length of [m] itself
    is at most 1000; a trimmed string is not empty exactly when the string
    holds a code unit that is not white space. *)
Theorem validateChatMessage_iff (m : jsstring) :
  (validateChatMessage m = true <-> trim m <> [] /\ length m <= 1000)
  /\ (validateChatMessage m = true <->
        (exists c, In c m /\ isWhiteSpace c = false) /\ length m <= 1000).
Proof.
  assert (V : validateChatMessage m = true <-> trim m <> [] /\ length m <= 1000).
  { unfold validateChatMessage.
    rewrite andb_true_iff, Nat.ltb_lt, Nat.leb_le, nonempty_length. reflexivity. }
  split; [exact V|]. rewrite V, trim_nonempty_iff. reflexivity.
Qed.

(** The tests of validateChatMessage. *)
Example validateChatMessage_tests :
  validateChatMessage (lit "Hello") = true
  /\ validateChatMessage (repeat 65%N 1000) = true
  /\ validateChatMessage (lit "") = false
  /\ validateChatMessage (lit "   ") = false
  /\ validateChatMessage [10%N; 9%N; 32%N; 32%N] = false
  /\ validateChatMessage (repeat 65%N 1001) = false.
Proof. repeat split; vm_compute; reflexivity. Qed.

(** *** truncateMessage *)

Lemma toInteger_ofNat (n : nat) :
  toIntegerOrInfinity (ofNat n) = IntVal (Z.of_nat n).
Proof. simpl. rewrite Z.quot_1_r. reflexivity. Qed.

Lemma toInteger_natural (x : jsnumber) (n : nat) :
  isNatural x n -> toIntegerOrInfinity x = IntVal (Z.of_nat n).
Proof.
  destruct x as [q| | |]; simpl; try contradiction.
  unfold Qeq. simpl. intros E. rewrite Z.mul_1_r in E. rewrite E.
  rewrite Z.quot_mul by discriminate. reflexivity.
Qed.

Lemma le_natural (x : jsnumber) (n k : nat) :
  isNatural x n -> le (ofNat k) x = Nat.leb k n.
Proof.
  destruct x as [q| | |]; simpl; try contradiction.
  intros E. apply eq_true_iff_eq.
  rewrite Qle_bool_iff, Nat.leb_le, E, <- Zle_Qle. lia.
Qed.

(** [substring(0, end)] is a prefix. *)
Lemma substring_from_zero (s : jsstring) (x : jsnumber) :
  substring s (ofNat 0) x
  = firstn (clampIndex (toIntegerOrInfinity x) (length s)) s.
Proof.
  unfold substring. rewrite toInteger_ofNat. simpl clampIndex at 1.
  simpl. rewrite Nat.sub_0_r. reflexivity.
Qed.

(** The prefix kept when the message is cut: its length [k] is the limit
    truncated to an integer and raised to 0, and cutting a message already
    cut keeps the same [k] code units. *)
Lemma truncateMessage_cut (message : jsstring) (x : jsnumber) :
  le (ofNat (length message)) x = false ->
  exists k,
    k <= length message
    /\ truncateMessage message x = firstn k message ++ lit "..."
    /\ le (ofNat (k + 3)) x = false
    /\ clampIndex (toIntegerOrInfinity x) (k + 3) = k.
Proof.
  intros L. unfold truncateMessage. rewrite L, substring_from_zero.
  destruct x as [q| | |].
  - simpl in L. simpl toIntegerOrInfinity. simpl clampIndex.
    destruct q as [a d]. simpl.
    assert (A : (a < Z.of_nat (length message) * Z.pos d)%Z).
    { destruct (Qle_bool (inject_Z (Z.of_nat (length message))) (a # d)) eqn:B;
        [discriminate|].
      unfold Qle_bool in B. simpl in B. apply Z.leb_gt in B. lia. }
    set (z := Z.quot a (Z.pos d)).
    assert (Zb : (z <= 0 /\ a < Z.pos d)%Z
                 \/ (0 <= z /\ z * Z.pos d <= a < (z + 1) * Z.pos d)%Z).
    { subst z. destruct (Z.lt_ge_cases a 0) as [N|P].
      - left. split; [|lia].
        rewrite <- (Z.opp_involutive a), Z.quot_opp_l by discriminate.
        pose proof (Z.quot_pos (- a) (Z.pos d)). lia.
      - right. rewrite Z.quot_div_nonneg by lia.
        pose proof (Z.mul_div_le a (Z.pos d) eq_refl).
        pose proof (Z.mul_succ_div_gt a (Z.pos d) eq_refl).
        pose proof (Z.div_pos a (Z.pos d) P eq_refl). lia. }
    exists (Z.to_nat (Z.max z 0)).
    assert (K : Z.to_nat (Z.max z 0) <= length message) by nia.
    split; [exact K|]. split; [|split].
    + rewrite Nat.min_l by exact K. reflexivity.
    + unfold Qle_bool. simpl. apply Z.leb_gt. nia.
    + lia.
  - discriminate.
  - exists 0. repeat split; lia.
  - exists 0. repeat split; lia.
Qed.

Lemma truncateMessage_idempotent (message : jsstring) (x : jsnumber) :
  truncateMessage (truncateMessage message x) x = truncateMessage message x.
Proof.
  destruct (le (ofNat (length message)) x) eqn:L.
  - unfold truncateMessage. rewrite L, L. reflexivity.
  - destruct (truncateMessage_cut message x L) as [k [K [E [L' C]]]].
    rewrite E.
    assert (Lk : length (firstn k message ++ lit "...") = k + 3).
    { rewrite length_app, length_firstn, Nat.min_l by exact K. reflexivity. }
    unfold truncateMessage at 1. rewrite Lk, L', substring_from_zero, Lk, C.
    rewrite firstn_app, length_firstn, Nat.min_l by exact K.
    rewrite Nat.sub_diag, firstn_firstn, Nat.min_id. simpl.
    rewrite app_nil_r. reflexivity.
Qed.

(** C9, as the code has it: a message no longer than [maxLength] comes back
    unchanged; when [maxLength] is a natural number below the length, the
    result is the first [maxLength] code units followed by three dots, of
    length [maxLength + 3] (so [truncateMessage("AB", 1)] is ["A..."], of
    length 4); and [truncateMessage] is idempotent at every [maxLength]. *)
Theorem truncateMessage_spec (message : jsstring) (maxLength : jsnumber) :
  (le (ofNat (length message)) maxLength = true ->
     truncateMessage message maxLength = message)
  /\ (forall n, isNatural maxLength n -> length message <= n ->
        truncateMessage message maxLength = message)
  /\ (forall n, isNatural maxLength n -> n < length message ->
        truncateMessage message maxLength = firstn n message ++ lit "..."
        /\ length (truncateMessage message maxLength) = n + 3)
  /\ truncateMessage (lit "AB") (ofNat 1) = lit "A..."
  /\ truncateMessage (truncateMessage message maxLength) maxLength
     = truncateMessage message maxLength.
Proof.
  split; [|split; [|split; [|split]]].
  - intros L. unfold truncateMessage. rewrite L. reflexivity.
  - intros n Nat_ L. unfold truncateMessage.
    rewrite (le_natural _ _ _ Nat_). apply Nat.leb_le in L. rewrite L. reflexivity.
  - intros n Nat_ L.
    assert (E : truncateMessage message maxLength = firstn n message ++ lit "...").
    { unfold truncateMessage. rewrite (le_natural _ _ _ Nat_).
      destruct (Nat.leb_spec (length message) n); [lia|].
      rewrite substring_from_zero, (toInteger_natural _ _ Nat_). simpl.
      rewrite Z.max_l by lia. rewrite Nat2Z.id, Nat.min_l by lia. reflexivity. }
    split; [exact E|].
    rewrite E, length_app, length_firstn, Nat.min_l by lia. reflexivity.
  - vm_compute. reflexivity.
  - apply truncateMessage_idempotent.
Qed.

Lemma truncateMessage_spec_witness :
  isNatural (ofNat 1) 1 /\ 1 < length (lit "AB")
  /\ truncateMessage (lit "AB") (ofNat 1) = firstn 1 (lit "AB") ++ lit "..."
  /\ length (truncateMessage (lit "AB") (ofNat 1)) = 1 + 3.
Proof.
  assert (N1 : isNatural (ofNat 1) 1) by (simpl; reflexivity).
  assert (L1 : 1 < length (lit "AB")) by (simpl; lia).
  split; [exact N1|]. split; [exact L1|].
  exact (proj1 (proj2 (proj2 (truncateMessage_spec (lit "AB") (ofNat 1)))) 1 N1 L1).
Defined.

(** C9 as stated fails for a limit that is no natural number: at -1 the
    result is the three dots alone, of length 3 and not -1 + 3. *)
Lemma truncateMessage_negative_limit :
  ~ (forall (message : jsstring) (maxLength : Z),
       le (ofNat (length message)) (Finite (inject_Z maxLength)) = false ->
       Z.of_nat (length (truncateMessage message (Finite (inject_Z maxLength))))
       = (maxLength + 3)%Z).
Proof.
  intros H. pose proof (H (lit "AB") (-1)%Z eq_refl) as L.
  vm_compute in L. discriminate.
Qed.

(** The tests of truncateMessage. *)
Example truncateMessage_tests :
  truncateMessage (lit "") defaultMaxLength = lit ""
  /\ truncateMessage (lit "A") (ofNat 1) = lit "A"
  /\ truncateMessage (repeat 65%N 600) defaultMaxLength = repeat 65%N 500 ++ lit "..."
  /\ truncateMessage (lit "AB") (Finite (-1 # 1)) = lit "..."
  /\ truncateMessage (lit "AB") (Finite (3 # 2)) = lit "A..."
  /\ truncateMessage (lit "AB") NaN = lit "...".
Proof. repeat split; vm_compute; reflexivity. Qed.

(** *** formatChatSources *)

Lemma formatSource_faq (upperMap : N -> list N) (topic : jsstring) :
  formatSource upperMap (lit "faq#" ++ topic)
  = lit "FAQ: " ++ firstHyphenToSpace (toUpperCase upperMap topic).
Proof.
  unfold formatSource.
  rewrite startsWith_app, replace_prefix, replace_hyphen. reflexivity.
Qed.

Lemma formatSource_system (upperMap : N -> list N) (rest : jsstring) :
  formatSource upperMap (lit "system#" ++ rest) = lit "System".
Proof.
  unfold formatSource. rewrite startsWith_app.
  replace (startsWith (lit "system#" ++ rest) (lit "faq#")) with false
    by reflexivity.
  reflexivity.
Qed.

Lemma formatSource_other (upperMap : N -> list N) (source : jsstring) :
  startsWith source (lit "faq#") = false ->
  startsWith source (lit "system#") = false ->
  formatSource upperMap source = source.
Proof. intros F S. unfold formatSource. rewrite F, S. reflexivity. Qed.

(** Every source is shown as specified. *)
Lemma formatSource_renders (upperMap : N -> list N) (source : jsstring) :
  rendersAs upperMap source (formatSource upperMap source).
Proof.
  destruct (startsWith source (lit "faq#")) eqn:F.
  - apply startsWith_spec in F as [topic ->].
    rewrite formatSource_faq. constructor.
  - destruct (startsWith source (lit "system#")) eqn:S.
    + apply startsWith_spec in S as [rest ->].
      rewrite formatSource_system. constructor.
    + rewrite (formatSource_other _ _ F S). constructor; assumption.
Qed.

(** The way a source is shown is determined: [rendersAs] is a function. *)
Lemma rendersAs_formatSource (upperMap : N -> list N) (source shown : jsstring) :
  rendersAs upperMap source shown -> shown = formatSource upperMap source.
Proof.
  intros [topic|rest|s F S].
  - symmetry. apply formatSource_faq.
  - symmetry. apply formatSource_system.
  - symmetry. apply formatSource_other; assumption.
Qed.

Lemma firstHyphenToSpace_no_hyphen (s : jsstring) :
  ~ In 45%N s -> firstHyphenToSpace s = s.
Proof.
  induction s as [|c s IH]; simpl; [reflexivity|]. intros H.
  destruct (N.eqb_spec c 45) as [->|_]; [exfalso; apply H; left; reflexivity|].
  rewrite IH; [reflexivity|]. intros I. apply H. right. exact I.
Qed.

Lemma firstHyphenToSpace_first (before after : jsstring) :
  ~ In 45%N before ->
  firstHyphenToSpace (before ++ 45%N :: after) = before ++ 32%N :: after.
Proof.
  induction before as [|c before IH]; simpl; [reflexivity|]. intros H.
  destruct (N.eqb_spec c 45) as [->|_]; [exfalso; apply H; left; reflexivity|].
  rewrite IH; [reflexivity|]. intros I. apply H. right. exact I.
Qed.

(** C10: no list, or an empty one, gives the empty string; otherwise the
    sources are shown one by one, in their order, and joined with a comma
    and a space: one source alone gives the way it is shown, and a source
    followed by others gives the way it is shown, then a comma and a
    space, then what the others give.  A source [faq#topic] is shown as
    [FAQ: ] and the topic in upper case with its first hyphen (and no
    other) turned into a space, a source [system#...] as [System], any
    other source as it is.  So [faq#free-cash-flow] is shown as
    [FAQ: FREE CASH-FLOW]. *)
Theorem formatChatSources_spec (upperMap : N -> list N) :
  formatChatSources upperMap None = lit ""
  /\ formatChatSources upperMap (Some []) = lit ""
  /\ (forall source, exists shown,
        rendersAs upperMap source shown
        /\ formatChatSources upperMap (Some [source]) = shown
        /\ forall next rest,
             formatChatSources upperMap (Some (source :: next :: rest))
             = shown ++ lit ", " ++ formatChatSources upperMap (Some (next :: rest)))
  /\ (forall s, ~ In 45%N s -> firstHyphenToSpace s = s)
  /\ (forall before after, ~ In 45%N before ->
        firstHyphenToSpace (before ++ lit "-" ++ after) = before ++ lit " " ++ after)
  /\ (agrees_on_ascii upperMap ->
        formatChatSources upperMap (Some [lit "faq#free-cash-flow"])
        = lit "FAQ: FREE CASH-FLOW").
Proof.
  split; [reflexivity|]. split; [reflexivity|]. split; [|split; [|split]].
  - intros source. exists (formatSource upperMap source). split; [|split].
    + apply formatSource_renders.
    + reflexivity.
    + intros next rest. reflexivity.
  - exact firstHyphenToSpace_no_hyphen.
  - exact firstHyphenToSpace_first.
  - intros A. simpl formatChatSources.
    change (lit "faq#free-cash-flow") with (lit "faq#" ++ lit "free-cash-flow").
    rewrite formatSource_faq, (toUpperCase_ascii _ _ A).
    + vm_compute. reflexivity.
    + vm_compute. repeat constructor.
Qed.

(** An uppercase mapping that is right on ASCII, for the example. *)
Lemma formatChatSources_spec_witness :
  agrees_on_ascii (fun c => [asciiUpper c])
  /\ formatChatSources (fun c => [asciiUpper c]) (Some [lit "faq#free-cash-flow"])
     = lit "FAQ: FREE CASH-FLOW".
Proof.
  assert (A : agrees_on_ascii (fun c => [asciiUpper c])) by (intros c _; reflexivity).
  split; [exact A|].
  exact (proj2 (proj2 (proj2 (proj2 (proj2
           (formatChatSources_spec (fun c => [asciiUpper c])))))) A).
Defined.

(** The tests of formatChatSources, with the letters of ASCII. *)
Example formatChatSources_tests :
  let up := fun c => [asciiUpper c] in
  formatChatSources up (Some [lit "faq#ebitda"]) = lit "FAQ: EBITDA"
  /\ formatChatSources up (Some [lit "faq#marge-brute"]) = lit "FAQ: MARGE BRUTE"
  /\ formatChatSources up (Some [lit "system#unavailable"]) = lit "System"
  /\ formatChatSources up (Some [lit "faq#ebitda"; lit "system#unavailable"])
     = lit "FAQ: EBITDA, System"
  /\ formatChatSources up (Some [lit "doc#article-1"]) = lit "doc#article-1"
  /\ formatChatSources up (Some []) = lit ""
  /\ formatChatSources up None = lit "".
Proof. repeat split; vm_compute; reflexivity. Qed.

End ChatFacts.

(** ** lib/query/articles.ts *)

Section ArticleFacts.
Import Js Articles.

Lemma filter_Permutation {A} (f : A -> bool) (l l' : list A) :
  Permutation l l' -> Permutation (filter f l) (filter f l').
Proof.
  induction 1 as [|x l l' _ IH|x y l|l l' l'' _ IH1 _ IH2]; simpl.
  - constructor.
  - destruct (f x); [constructor|]; exact IH.
  - destruct (f x), (f y); try apply Permutation_refl. constructor.
  - exact (Permutation_trans IH1 IH2).
Qed.

Lemma inOrder_trans (sort : sortOrder) (a b c : Article) :
  inOrder sort a b -> inOrder sort b c -> inOrder sort a c.
Proof. destruct sort; unfold inOrder; lia. Qed.

Lemma filter_StronglySorted {A} (R : A -> A -> Prop) (f : A -> bool) (l : list A) :
  StronglySorted R l -> StronglySorted R (filter f l).
Proof.
  induction 1 as [|x l _ IH F]; simpl; [constructor|].
  destruct (f x); [|exact IH]. constructor; [exact IH|].
  rewrite Forall_forall in *. intros y I.
  apply filter_In in I as [I _]. exact (F y I).
Qed.

(** Filtering keeps a list in date order. *)
Lemma filter_keeps_order (sort : sortOrder) (f : Article -> bool) (l : list Article) :
  Sorted (inOrder sort) l -> Sorted (inOrder sort) (filter f l).
Proof.
  intros S. apply StronglySorted_Sorted, filter_StronglySorted.
  apply Sorted_StronglySorted; [|exact S].
  intros a b c. apply inOrder_trans.
Qed.

(** The callback of the filter decides the containment the specification
    speaks of. *)
Lemma matchesQuery_spec (toLowerCase : jsstring -> jsstring)
    (query : jsstring) (a : Article) :
  matchesQuery toLowerCase (toLowerCase query) a = true
  <-> containsIgnoringCase toLowerCase (title a) query
      \/ containsIgnoringCase toLowerCase (summary a) query.
Proof.
  unfold matchesQuery, containsIgnoringCase.
  rewrite orb_true_iff, !includes_spec. reflexivity.
Qed.

Section WithDatabase.

Variable table : list Article.
Variable findMany : sortOrder -> list Article.
Variable toLowerCase : jsstring -> jsstring.
Hypothesis prisma : answersOrderBy table findMany.

Lemma getArticles_empty_query (sort : sortOrder) :
  getArticles findMany toLowerCase [] sort = findMany sort.
Proof. reflexivity. Qed.

Lemma getArticles_query (query : jsstring) (sort : sortOrder) :
  query <> [] ->
  getArticles findMany toLowerCase query sort
  = filter (matchesQuery toLowerCase (toLowerCase query)) (findMany sort).
Proof.
  intros Q. unfold getArticles. destruct query; [contradiction | reflexivity].
Qed.

Lemma getArticles_ordered (query : jsstring) (sort : sortOrder) :
  Sorted (inOrder sort) (getArticles findMany toLowerCase query sort).
Proof.
  destruct (prisma sort) as [_ S].
  destruct query as [|c q].
  - exact S.
  - rewrite getArticles_query by discriminate. apply filter_keeps_order, S.
Qed.

End WithDatabase.

(** C7: over a client that answers [findMany] with the rows of the table
    in date order, [getArticles] returns articles ordered by date in the
    direction asked; for a query that is not empty these are exactly the
    articles of the table whose lowercased title or lowercased summary
    contains the lowercased query (each as often as the table has it, in
    the order of the sorted rows); for the empty query they are all the
    articles. *)
Theorem getArticles_spec (table : list Article)
    (findMany : sortOrder -> list Article) (toLowerCase : jsstring -> jsstring)
    (query : jsstring) (sort : sortOrder) :
  answersOrderBy table findMany ->
  let result := getArticles findMany toLowerCase query sort in
  Sorted (inOrder sort) result
  /\ (query <> [] ->
        (forall a, In a result <->
                   In a table
                   /\ (containsIgnoringCase toLowerCase (title a) query
                       \/ containsIgnoringCase toLowerCase (summary a) query))
        /\ Permutation result
             (filter (matchesQuery toLowerCase (toLowerCase query)) table)
        /\ result = filter (matchesQuery toLowerCase (toLowerCase query)) (findMany sort))
  /\ (query = [] -> result = findMany sort /\ Permutation result table).
Proof.
  intros P result. subst result. split; [|split].
  - apply (getArticles_ordered table); exact P.
  - intros Q. rewrite (getArticles_query _ _ _ _ Q).
    destruct (P sort) as [Perm _]. split; [|split].
    + intros a. rewrite filter_In, matchesQuery_spec. split.
      * intros [I M]. split; [exact (Permutation_in a Perm I) | exact M].
      * intros [I M]. split; [exact (Permutation_in a (Permutation_sym Perm) I) | exact M].
    + apply filter_Permutation, Perm.
    + reflexivity.
  - intros ->. rewrite getArticles_empty_query. split; [reflexivity|].
    exact (proj1 (P sort)).
Qed.

(** The sorting client answers [findMany] as promised, on every table. *)
Lemma insertByDate_Permutation (sort : sortOrder) (a : Article) (l : list Article) :
  Permutation (insertByDate sort a l) (a :: l).
Proof.
  induction l as [|b l IH]; simpl; [apply Permutation_refl|].
  destruct (dateLeb sort a b); [apply Permutation_refl|].
  eapply Permutation_trans; [apply perm_skip, IH | apply perm_swap].
Qed.

Lemma dateLeb_total (sort : sortOrder) (a b : Article) :
  dateLeb sort a b = false -> inOrder sort b a.
Proof. destruct sort; unfold dateLeb, inOrder; intros H; apply Z.leb_gt in H; lia. Qed.

Lemma dateLeb_inOrder (sort : sortOrder) (a b : Article) :
  dateLeb sort a b = true -> inOrder sort a b.
Proof. destruct sort; unfold dateLeb, inOrder; intros H; apply Z.leb_le in H; lia. Qed.

Lemma insertByDate_Sorted (sort : sortOrder) (a : Article) (l : list Article) :
  Sorted (inOrder sort) l -> Sorted (inOrder sort) (insertByDate sort a l).
Proof.
  induction 1 as [|b l S IH H]; simpl; [repeat constructor|].
  destruct (dateLeb sort a b) eqn:D.
  - constructor; [constructor; assumption|].
    constructor. exact (dateLeb_inOrder _ _ _ D).
  - constructor; [exact IH|].
    destruct l as [|c l]; simpl.
    + constructor. exact (dateLeb_total _ _ _ D).
    + destruct (dateLeb sort a c); constructor.
      * exact (dateLeb_total _ _ _ D).
      * inversion H; assumption.
Qed.

Lemma sortingClient_answers (table : list Article) :
  answersOrderBy table (sortingClient table).
Proof.
  intros sort. unfold sortingClient. split.
  - induction table as [|a t IH]; simpl; [constructor|].
    eapply Permutation_trans; [apply insertByDate_Permutation|].
    constructor. exact IH.
  - induction table as [|a t IH]; simpl; [constructor|].
    apply insertByDate_Sorted, IH.
Qed.

(** Lowercasing with the final sigma: the capitals omicron, delta,
    omicron, sigma; one capital sigma; the capitals sigma, alpha, sigma;
    and a word of ASCII. *)
Example toLowerCaseGreek_examples :
  toLowerCaseGreek [927; 916; 927; 931]%N = [959; 948; 959; 962]%N
  /\ toLowerCaseGreek [931]%N = [963]%N
  /\ toLowerCaseGreek [931; 913; 931]%N = [963; 945; 962]%N
  /\ toLowerCaseGreek (lit "Cash Flow") = lit "cash flow".
Proof. repeat split; vm_compute; reflexivity. Qed.

(** C7 as stated fails where lowercasing depends on the context: the
    title of four Greek capitals omicron, delta, omicron, sigma holds the
    query of one capital sigma as it is written, and the article is not
    returned: the sigma of the title is lowercased to the final sigma,
    the sigma of the query to the other small sigma. *)
Lemma getArticles_misses_final_sigma :
  ~ (forall (table : list Article) (findMany : sortOrder -> list Article)
            (query : jsstring) (sort : sortOrder) (a : Article),
       answersOrderBy table findMany ->
       query <> [] ->
       In a table ->
       includes (title a) query = true ->
       In a (getArticles findMany toLowerCaseGreek query sort)).
Proof.
  intros H.
  pose (odos := mkArticle (lit "a11") [927; 916; 927; 931]%N 1736899200000 (lit "Rue")).
  specialize (H [odos] (sortingClient [odos]) [931%N] desc odos
                (sortingClient_answers [odos]) ltac:(discriminate)
                (or_introl eq_refl) eq_refl).
  vm_compute in H. exact H.
Qed.

Lemma getArticles_spec_witness :
  answersOrderBy sampleTable (sortingClient sampleTable)
  /\ Sorted (inOrder desc)
       (getArticles (sortingClient sampleTable) asciiLower (lit "CASH") desc)
  /\ map id (getArticles (sortingClient sampleTable) asciiLower (lit "CASH") desc)
     = [lit "a8"].
Proof.
  split; [exact (sortingClient_answers sampleTable)|]. split.
  - exact (proj1 (getArticles_spec sampleTable (sortingClient sampleTable) asciiLower
                    (lit "CASH") desc (sortingClient_answers sampleTable))).
  - vm_compute. reflexivity.
Defined.

End ArticleFacts.

(** ** app/api/chat/route.ts *)

Section RouteFacts.
Import Js Route.

Ltac run_handler :=
  unfold runPOST, POST, tryCatch, bind, await, chatRequestSchema_parse,
    fetch, ask, throw, ret, chatCall; simpl.

(** *** The paths through the handler *)

Lemma POST_unreadable_request (w : world) (request : nextRequest) e :
  requestJson request = Throw e ->
  runPOST w request = (Ok (errorResponse e), []).
Proof. intros R. run_handler. rewrite R. reflexivity. Qed.

Lemma POST_invalid_body (w : world) (request : nextRequest) body issue :
  requestJson request = Ok body ->
  chatRequestSchema_check body = inl issue ->
  runPOST w request
  = (Ok (mkResponse 400 (invalidRequestBody (zodErrorMessage w issue))), []).
Proof. intros R C. run_handler. rewrite R, C. reflexivity. Qed.

Lemma POST_fetch_throws (w : world) (request : nextRequest) body message e :
  requestJson request = Ok body ->
  chatRequestSchema_check body = inr message ->
  fetchImpl w (chatCall w message) = Throw e ->
  runPOST w request = (Ok (errorResponse e), [chatCall w message]).
Proof.
  intros R C F. unfold chatCall in F. run_handler. rewrite R, C. simpl.
  rewrite F. reflexivity.
Qed.

Lemma POST_upstream_not_ok (w : world) (request : nextRequest) body message up :
  requestJson request = Ok body ->
  chatRequestSchema_check body = inr message ->
  fetchImpl w (chatCall w message) = Ok up ->
  ok up = false ->
  runPOST w request
  = (Ok (mkResponse 500 internalErrorBody), [chatCall w message]).
Proof.
  intros R C F O. unfold chatCall in F. run_handler. rewrite R, C. simpl.
  rewrite F, O. reflexivity.
Qed.

Lemma POST_upstream_ok (w : world) (request : nextRequest) body message up data :
  requestJson request = Ok body ->
  chatRequestSchema_check body = inr message ->
  fetchImpl w (chatCall w message) = Ok up ->
  ok up = true ->
  jsonBody up = Ok data ->
  runPOST w request = (Ok (mkResponse 200 (serialise data)), [chatCall w message]).
Proof.
  intros R C F O J. unfold chatCall in F. run_handler. rewrite R, C. simpl.
  rewrite F, O. simpl. rewrite J. reflexivity.
Qed.

Lemma POST_upstream_unreadable (w : world) (request : nextRequest) body message up e :
  requestJson request = Ok body ->
  chatRequestSchema_check body = inr message ->
  fetchImpl w (chatCall w message) = Ok up ->
  ok up = true ->
  jsonBody up = Throw e ->
  runPOST w request = (Ok (errorResponse e), [chatCall w message]).
Proof.
  intros R C F O J. unfold chatCall in F. run_handler. rewrite R, C. simpl.
  rewrite F, O. simpl. rewrite J. reflexivity.
Qed.

(** The handler always answers, and calls [fetch] at most once: only after
    the body has passed the schema, and with the message it holds. *)
Lemma POST_calls (w : world) (request : nextRequest) :
  snd (runPOST w request) = []
  \/ exists body message,
       requestJson request = Ok body
       /\ chatRequestSchema_check body = inr message
       /\ snd (runPOST w request) = [chatCall w message].
Proof.
  destruct (requestJson request) as [body|e] eqn:R.
  - destruct (chatRequestSchema_check body) as [issue|message] eqn:C.
    + left. rewrite (POST_invalid_body _ _ _ _ R C). reflexivity.
    + right. exists body, message. repeat split; try assumption.
      destruct (fetchImpl w (chatCall w message)) as [up|e] eqn:F.
      * destruct (ok up) eqn:O.
        -- destruct (jsonBody up) as [data|e] eqn:J.
           ++ rewrite (POST_upstream_ok _ _ _ _ _ _ R C F O J). reflexivity.
           ++ rewrite (POST_upstream_unreadable _ _ _ _ _ _ R C F O J). reflexivity.
        -- rewrite (POST_upstream_not_ok _ _ _ _ _ R C F O). reflexivity.
      * rewrite (POST_fetch_throws _ _ _ _ _ R C F). reflexivity.
  - left. rewrite (POST_unreadable_request _ _ _ R). reflexivity.
Qed.

Lemma check_empty_message (fields : list (jsstring * json)) :
  getField fields (lit "message") = Some (JString []) ->
  chatRequestSchema_check (JObject fields)
  = inl (MessageTooSmall (lit "Message cannot be empty")).
Proof. intros G. unfold chatRequestSchema_check. rewrite G. reflexivity. Qed.

Lemma check_message (fields : list (jsstring * json)) (message : jsstring) :
  getField fields (lit "message") = Some (JString message) ->
  message <> [] ->
  chatRequestSchema_check (JObject fields) = inr message.
Proof.
  intros G NE. unfold chatRequestSchema_check. rewrite G.
  destruct message; [contradiction | reflexivity].
Qed.

Lemma check_accepts (body : json) (message : jsstring) :
  chatRequestSchema_check body = inr message ->
  message <> []
  /\ exists fields, body = JObject fields
       /\ getField fields (lit "message") = Some (JString message).
Proof.
  unfold chatRequestSchema_check.
  destruct body as [| | | | |fields]; try discriminate.
  destruct (getField fields (lit "message")) as [[| | |s| |]|] eqn:G; try discriminate.
  destruct s as [|c s]; simpl; [discriminate|].
  intros E; injection E as <-. split; [discriminate|].
  exists fields. split; [reflexivity | exact G].
Qed.

(** The mock fallback is told apart from the two error bodies. *)
Lemma errorResponse_mock_iff (e : jsError) :
  errorResponse e = mkResponse 200 mockResponseBody <-> isFetchTypeError e.
Proof.
  unfold errorResponse, isFetchTypeError, isClass.
  destruct e as [[| | |] msg]; simpl;
    try (split; [discriminate | intros [H _]; discriminate]).
  destruct (includes msg (lit "fetch")); simpl.
  - split; [intros _; split; reflexivity | reflexivity].
  - split; [discriminate | intros [_ H]; discriminate].
Qed.

(** *** Validation *)

(** C1, as the code has it: a body whose [message] is the empty string is
    answered with status 400 and the error [Invalid request], and [fetch]
    is never called; every other string, white space included, passes the
    schema and is forwarded in one call of [fetch]. *)
Theorem POST_empty_message (w : world) (fields : list (jsstring * json))
    (message : jsstring) :
  getField fields (lit "message") = Some (JString message) ->
  (message = [] ->
     runPOST w (requestWith fields)
     = (Ok (mkResponse 400
              (JObject [(lit "error", JString (lit "Invalid request"));
                        (lit "details",
                         JString (zodErrorMessage w
                                    (MessageTooSmall (lit "Message cannot be empty"))))])),
        []))
  /\ (message <> [] ->
        snd (runPOST w (requestWith fields)) = [chatCall w message]).
Proof.
  intros G. split.
  - intros ->.
    exact (POST_invalid_body w (requestWith fields) _ _ eq_refl
             (check_empty_message _ G)).
  - intros NE. pose proof (check_message _ _ G NE) as C.
    destruct (POST_calls w (requestWith fields)) as [E|[body [m' [R [C' E]]]]].
    + exfalso.
      destruct (fetchImpl w (chatCall w message)) as [up|e] eqn:F.
      * destruct (ok up) eqn:O.
        -- destruct (jsonBody up) as [data|e] eqn:J.
           ++ rewrite (POST_upstream_ok w (requestWith fields) _ _ _ _ eq_refl C F O J) in E.
              discriminate.
           ++ rewrite (POST_upstream_unreadable w (requestWith fields) _ _ _ _ eq_refl C F O J) in E.
              discriminate.
        -- rewrite (POST_upstream_not_ok w (requestWith fields) _ _ _ eq_refl C F O) in E.
           discriminate.
      * rewrite (POST_fetch_throws w (requestWith fields) _ _ _ eq_refl C F) in E.
        discriminate.
    + simpl in R. injection R as <-. rewrite C in C'. injection C' as <-. exact E.
Qed.

Lemma POST_empty_message_witness :
  runPOST serviceDown (requestWith [(lit "message", JString (lit ""))])
  = (Ok (mkResponse 400
           (JObject [(lit "error", JString (lit "Invalid request"));
                     (lit "details", JString (lit "zod"))])),
     []).
Proof.
  exact (proj1 (POST_empty_message serviceDown
                  [(lit "message", JString (lit ""))] (lit "") eq_refl) eq_refl).
Defined.

(** C1 as stated fails on a message of white space: a single space passes
    [min(1)] and is forwarded to the Python service. *)
Lemma POST_forwards_blank_message :
  ~ (forall (w : world) (fields : list (jsstring * json)) (message : jsstring),
       getField fields (lit "message") = Some (JString message) ->
       trim message = [] ->
       snd (runPOST w (requestWith fields)) = []
       /\ exists details,
            fst (runPOST w (requestWith fields))
            = Ok (mkResponse 400 (invalidRequestBody details))).
Proof.
  intros H.
  destruct (H (serviceAnswering 200 JNull) [(lit "message", JString (lit " "))]
              (lit " ") eq_refl eq_refl) as [Calls _].
  vm_compute in Calls. discriminate.
Qed.

(** *** Forwarding *)

(** **** What [JSON.stringify] keeps *)

Fixpoint serialise_writtenAsIs (value : json) {struct value} :
  writtenAsIs value = true -> serialise value = value.
Proof.
  destruct value as [|b|x|s|items|fields]; intros H; try reflexivity.
  - destruct x; try discriminate H; reflexivity.
  - cbn [serialise]. f_equal. cbn [writtenAsIs] in H.
    induction items as [|item items IH]; [reflexivity|].
    cbn [forallb] in H. apply andb_true_iff in H. destruct H as [H1 H2].
    cbn [map]. f_equal.
    + apply serialise_writtenAsIs, H1.
    + apply IH, H2.
  - cbn [serialise]. f_equal. cbn [writtenAsIs] in H.
    induction fields as [|[k v] fields IH]; [reflexivity|].
    cbn [forallb snd] in H. apply andb_true_iff in H. destruct H as [H1 H2].
    cbn [map fst snd]. f_equal.
    + f_equal. apply serialise_writtenAsIs, H1.
    + apply IH, H2.
Qed.

(** What has been written once is written as it is. *)
Fixpoint writtenAsIs_serialise (value : json) {struct value} :
  writtenAsIs (serialise value) = true.
Proof.
  destruct value as [|b|x|s|items|fields]; try reflexivity.
  - destruct x; reflexivity.
  - cbn [serialise writtenAsIs].
    induction items as [|item items IH]; [reflexivity|].
    cbn [map forallb]. rewrite writtenAsIs_serialise. exact IH.
  - cbn [serialise writtenAsIs].
    induction fields as [|[k v] fields IH]; [reflexivity|].
    cbn [map forallb fst snd]. rewrite writtenAsIs_serialise. exact IH.
Qed.

(** The numerals the examples below read. *)
Example readNumeral_examples :
  readNumeral false (inject_Z (10 ^ 999)) = Infinite false
  /\ readNumeral true (inject_Z (10 ^ 999)) = Infinite true
  /\ readNumeral false (inject_Z (2 ^ 53 + 1)) = Double (inject_Z (2 ^ 53))
  /\ readNumeral false (inject_Z (2 ^ 53 + 3)) = Double (inject_Z (2 ^ 53 + 4))
  /\ readNumeral true (inject_Z 0) = NegativeZero
  /\ readNumeral false (Qmake 3 2) = Double (Qmake 3 2)
  /\ readNumeral false (Qmake 1 (Z.to_pos (10 ^ 400))) = Double 0.
Proof. vm_compute. repeat split; reflexivity. Qed.

(** **** Reading the forwarded text back *)

Lemma below16 (P : N -> Prop) :
  (forall n, n < 16 -> P (N.of_nat n)) -> forall d, (d < 16)%N -> P d.
Proof.
  intros H d D. rewrite <- (N2Nat.id d). apply H. lia.
Qed.

Lemma hexValue_hexDigit (d : N) : (d < 16)%N -> hexValue (hexDigit d) = Some d.
Proof.
  revert d. apply (below16 (fun d => hexValue (hexDigit d) = Some d)). intros n Hn.
  do 16 (destruct n as [|n]; [reflexivity|]). lia.
Qed.

Lemma hex_digits (c : N) :
  (c < 65536)%N ->
  (c / 4096 < 16)%N /\ ((c / 256) mod 16 < 16)%N /\ ((c / 16) mod 16 < 16)%N
  /\ (c mod 16 < 16)%N
  /\ (c / 4096 * 4096 + (c / 256) mod 16 * 256 + (c / 16) mod 16 * 16 + c mod 16 = c)%N.
Proof.
  intros H. zify. Z.to_euclidean_division_equations. lia.
Qed.

Lemma readString_escape (c : N) (text : jsstring) :
  (c < 65536)%N ->
  readString (unicodeEscape c ++ text) = prepend c (readString text).
Proof.
  intros H. destruct (hex_digits c H) as [H3 [H2 [H1 [H0 E]]]].
  unfold unicodeEscape. cbn [lit app readString String.length].
  change (readString (92%N :: 117%N :: hexDigit (c / 4096) :: hexDigit ((c / 256) mod 16)
            :: hexDigit ((c / 16) mod 16) :: hexDigit (c mod 16) :: text)
          = prepend c (readString text)).
  cbn [readString N.eqb Pos.eqb].
  rewrite !hexValue_hexDigit by assumption. rewrite E. reflexivity.
Qed.

Lemma readString_codeUnit (c : N) (text : jsstring) :
  (c < 65536)%N ->
  readString (quoteCodePoint c ++ text) = prepend c (readString text).
Proof.
  intros H. unfold quoteCodePoint, quoteChar.
  destruct (N.eqb_spec c 8) as [->|N8]; [reflexivity|].
  destruct (N.eqb_spec c 9) as [->|N9]; [reflexivity|].
  destruct (N.eqb_spec c 10) as [->|N10]; [reflexivity|].
  destruct (N.eqb_spec c 12) as [->|N12]; [reflexivity|].
  destruct (N.eqb_spec c 13) as [->|N13]; [reflexivity|].
  destruct (N.eqb_spec c 34) as [->|N34]; [reflexivity|].
  destruct (N.eqb_spec c 92) as [->|N92]; [reflexivity|].
  destruct (N.ltb c 32 || in_range 55296 57343 c) eqn:E.
  - apply readString_escape, H.
  - apply orb_false_iff in E. destruct E as [E _].
    unfold encodeCodePoint.
    destruct (N.ltb_spec c 65536) as [_|G]; [|lia].
    cbn [app readString].
    destruct (N.eqb_spec c 34) as [|_]; [contradiction|].
    destruct (N.eqb_spec c 92) as [|_]; [contradiction|].
    rewrite E. reflexivity.
Qed.

Lemma readString_pair (hi lo : N) (text : jsstring) :
  isHighSurrogate hi && isLowSurrogate lo = true ->
  readString (quoteCodePoint (65536 + (hi - 55296) * 1024 + (lo - 56320)) ++ text)
  = prepend hi (prepend lo (readString text)).
Proof.
  unfold isHighSurrogate, isLowSurrogate, in_range. intros S.
  apply andb_true_iff in S. destruct S as [Hh Hl].
  apply andb_true_iff in Hh. destruct Hh as [Hh1 Hh2].
  apply andb_true_iff in Hl. destruct Hl as [Hl1 Hl2].
  apply N.leb_le in Hh1, Hh2, Hl1, Hl2.
  set (cp := (65536 + (hi - 55296) * 1024 + (lo - 56320))%N).
  assert (G : (65536 <= cp)%N) by (unfold cp; lia).
  unfold quoteCodePoint, quoteChar.
  destruct (N.eqb_spec cp 8) as [|_]; [lia|].
  destruct (N.eqb_spec cp 9) as [|_]; [lia|].
  destruct (N.eqb_spec cp 10) as [|_]; [lia|].
  destruct (N.eqb_spec cp 12) as [|_]; [lia|].
  destruct (N.eqb_spec cp 13) as [|_]; [lia|].
  destruct (N.eqb_spec cp 34) as [|_]; [lia|].
  destruct (N.eqb_spec cp 92) as [|_]; [lia|].
  assert (E : N.ltb cp 32 || in_range 55296 57343 cp = false).
  { apply orb_false_iff. split.
    - apply N.ltb_ge. lia.
    - unfold in_range. apply andb_false_iff. right. apply N.leb_gt. lia. }
  rewrite E. unfold encodeCodePoint.
  destruct (N.ltb_spec cp 65536) as [L|_]; [lia|].
  assert (Eh : (55296 + (cp - 65536) / 1024 = hi)%N).
  { unfold cp. zify. Z.to_euclidean_division_equations. lia. }
  assert (El : (56320 + (cp - 65536) mod 1024 = lo)%N).
  { unfold cp. zify. Z.to_euclidean_division_equations. lia. }
  rewrite Eh, El. cbn [app readString].
  destruct (N.eqb_spec hi 34) as [|_]; [lia|].
  destruct (N.eqb_spec hi 92) as [|_]; [lia|].
  destruct (N.ltb_spec hi 32) as [|_]; [lia|].
  destruct (N.eqb_spec lo 34) as [|_]; [lia|].
  destruct (N.eqb_spec lo 92) as [|_]; [lia|].
  destruct (N.ltb_spec lo 32) as [|_]; [lia|].
  reflexivity.
Qed.

Lemma codePoints_unfold (hi lo : N) (rest : jsstring) :
  codePoints (hi :: lo :: rest)
  = if isHighSurrogate hi && isLowSurrogate lo
    then (65536 + (hi - 55296) * 1024 + (lo - 56320))%N :: codePoints rest
    else hi :: codePoints (lo :: rest).
Proof. reflexivity. Qed.

Lemma readString_quoted (n : nat) :
  forall (s tail : jsstring),
    length s <= n ->
    codeUnits s ->
    readString (flat_map quoteCodePoint (codePoints s) ++ quoteChar :: tail)
    = Some (s, tail).
Proof.
  induction n as [|n IH]; intros s tail L U.
  - destruct s; [reflexivity|simpl in L; lia].
  - destruct s as [|hi rest]; [reflexivity|].
    destruct rest as [|lo rest'].
    + cbn [codePoints flat_map]. rewrite app_nil_r.
      rewrite readString_codeUnit by (inversion U; assumption).
      reflexivity.
    + rewrite codePoints_unfold.
      destruct (isHighSurrogate hi && isLowSurrogate lo) eqn:S.
      * change (flat_map quoteCodePoint (?a :: ?l))
          with (quoteCodePoint a ++ flat_map quoteCodePoint l).
        rewrite <- app_assoc. rewrite (readString_pair _ _ _ S).
        rewrite (IH rest' tail).
        -- reflexivity.
        -- simpl in L |- *. lia.
        -- inversion U as [|? ? _ U']. inversion U'. assumption.
      * change (flat_map quoteCodePoint (?a :: ?l))
          with (quoteCodePoint a ++ flat_map quoteCodePoint l).
        rewrite <- app_assoc.
        rewrite readString_codeUnit by (inversion U; assumption).
        rewrite (IH (lo :: rest') tail).
        -- reflexivity.
        -- simpl in L |- *. lia.
        -- inversion U. assumption.
Qed.

Lemma stringifyChatMessage_text (message : jsstring) :
  stringifyChatMessage message
  = lit "{" ++ [quoteChar] ++ lit "message" ++ [quoteChar] ++ lit ":" ++ [quoteChar]
      ++ flat_map quoteCodePoint (codePoints message) ++ [quoteChar] ++ lit "}".
Proof.
  unfold stringifyChatMessage, quoteJSONString.
  change (flat_map quoteCodePoint (codePoints (lit "message"))) with (lit "message").
  rewrite <- !app_assoc. reflexivity.
Qed.

(** The text the handler forwards reads back as an object holding the
    message. *)
Lemma readMessageObject_stringify (message : jsstring) :
  codeUnits message ->
  readMessageObject (stringifyChatMessage message) = Some message.
Proof.
  intros U. rewrite stringifyChatMessage_text. unfold readMessageObject.
  set (inner := flat_map quoteCodePoint (codePoints message)).
  change (match readString (inner ++ quoteChar :: lit "}") with
          | Some (m, rest) => if jsstring_eqb rest (lit "}") then Some m else None
          | None => None
          end = Some message).
  unfold inner. rewrite (readString_quoted (length message) message (lit "}") (le_n _) U).
  reflexivity.
Qed.

(** **** The handler *)

(** C3 as stated fails on an upstream body that holds a number too large
    for a double: [response.json()] reads the body [1e999] as an infinity,
    and [NextResponse.json] writes an infinity as [null]. *)
Lemma POST_rewrites_large_number :
  ~ (forall (w : world) (fields : list (jsstring * json)) (message : jsstring)
            (up : upstreamResponse) (data : json),
       getField fields (lit "message") = Some (JString message) ->
       message <> [] ->
       fetchImpl w (chatCall w message) = Ok up ->
       ok up = true ->
       jsonBody up = Ok data ->
       fst (runPOST w (requestWith fields)) = Ok (mkResponse 200 data)).
Proof.
  intros H.
  pose (data := JNumber (readNumeral false (inject_Z (10 ^ 999)))).
  specialize (H (serviceAnswering 200 data) [(lit "message", JString (lit "hi"))]
                (lit "hi") (mkUpstream true 200 (Ok data)) data
                eq_refl ltac:(discriminate) eq_refl eq_refl eq_refl).
  vm_compute in H. discriminate H.
Qed.

(** C3: when the body holds a message that is not empty and [fetch]
    resolves with an ok response whose body reads as JSON, the handler has
    made one call, a POST to [PYTHON_SERVICE_URL/chat] (the address of the
    environment, [http://localhost:8001] when it gives none) of a text that
    reads back as the object holding the message and nothing else, and it
    answers with status 200 and the upstream value as [JSON.stringify]
    writes it: the value itself unless it holds an infinity or a negative
    zero. *)
Theorem POST_forwards (w : world) (fields : list (jsstring * json))
    (message : jsstring) (up : upstreamResponse) (data : json) :
  getField fields (lit "message") = Some (JString message) ->
  message <> [] ->
  codeUnits message ->
  fetchImpl w (chatCall w message) = Ok up ->
  ok up = true ->
  jsonBody up = Ok data ->
  (exists address text,
     runPOST w (requestWith fields)
     = (Ok (mkResponse 200 (serialise data)),
        [mkCall (address ++ lit "/chat")
                (mkInit (lit "POST")
                        [(lit "Content-Type", lit "application/json")]
                        text)])
     /\ readMessageObject text = Some message
     /\ text = lit "{" ++ [quoteChar] ++ lit "message" ++ [quoteChar] ++ lit ":"
                 ++ quoteJSONString message ++ lit "}"
     /\ match env_PYTHON_SERVICE_URL w with
        | Some configured =>
            address = if Nat.eqb (length configured) 0
                      then lit "http://localhost:8001" else configured
        | None => address = lit "http://localhost:8001"
        end)
  /\ (writtenAsIs data = true -> serialise data = data)
  /\ writtenAsIs (serialise data) = true.
Proof.
  intros G NE U F O J. split; [|split].
  - exists (PYTHON_SERVICE_URL w), (stringifyChatMessage message).
    split; [|split; [|split]].
    + exact (POST_upstream_ok w (requestWith fields) _ _ _ _ eq_refl
               (check_message _ _ G NE) F O J).
    + apply readMessageObject_stringify, U.
    + reflexivity.
    + unfold PYTHON_SERVICE_URL. destruct (env_PYTHON_SERVICE_URL w); reflexivity.
  - apply serialise_writtenAsIs.
  - apply writtenAsIs_serialise.
Qed.

Lemma POST_forwards_witness :
  let data := JObject [(lit "answer", JString (lit "EBITDA is ..."));
                       (lit "sources", JArray [JString (lit "faq#ebitda")]);
                       (lit "score", JNumber (Double (Qmake 3 4)))] in
  exists address text,
    runPOST (serviceAnswering 200 data)
            (requestWith [(lit "message", JString (lit "What is EBITDA?"));
                          (lit "extra", JBool true)])
    = (Ok (mkResponse 200 data),
       [mkCall (address ++ lit "/chat")
               (mkInit (lit "POST")
                       [(lit "Content-Type", lit "application/json")]
                       text)])
    /\ address = lit "http://localhost:8001"
    /\ text = lit "{" ++ [quoteChar] ++ lit "message" ++ [quoteChar] ++ lit ":"
                ++ [quoteChar] ++ lit "What is EBITDA?" ++ [quoteChar] ++ lit "}".
Proof.
  intros data.
  destruct (POST_forwards (serviceAnswering 200 data)
              [(lit "message", JString (lit "What is EBITDA?"));
               (lit "extra", JBool true)]
              (lit "What is EBITDA?")
              (mkUpstream true 200 (Ok data)) data)
    as [[address [text [Run [_ [Text Address]]]]] _].
  - reflexivity.
  - discriminate.
  - unfold codeUnits. repeat constructor.
  - reflexivity.
  - reflexivity.
  - reflexivity.
  - exists address, text. split; [exact Run|]. split; [exact Address|].
    rewrite Text. reflexivity.
Defined.

(** The forwarded text, on the message of the tests. *)
Example stringifyChatMessage_example :
  stringifyChatMessage (lit "What is EBITDA?")
  = lit "{" ++ [quoteChar] ++ lit "message" ++ [quoteChar] ++ lit ":"
      ++ [quoteChar] ++ lit "What is EBITDA?" ++ [quoteChar] ++ lit "}".
Proof. vm_compute. reflexivity. Qed.

(** *** The service is unavailable *)

Lemma fetchThrew_inv (w : world) (request : nextRequest) (e : jsError) :
  fetchThrew w request e ->
  runPOST w request = (Ok (errorResponse e), snd (runPOST w request)).
Proof.
  intros [c [I F]].
  destruct (POST_calls w request) as [E|[body [m [R [C E]]]]].
  - rewrite E in I. destruct I.
  - rewrite E in I. destruct I as [<-|[]].
    rewrite (POST_fetch_throws _ _ _ _ _ R C F). reflexivity.
Qed.

Lemma fetchResolved_inv (w : world) (request : nextRequest) (up : upstreamResponse) :
  fetchResolved w request up ->
  exists body message,
    requestJson request = Ok body
    /\ chatRequestSchema_check body = inr message
    /\ fetchImpl w (chatCall w message) = Ok up.
Proof.
  intros [c [I F]].
  destruct (POST_calls w request) as [E|[body [m [R [C E]]]]].
  - rewrite E in I. destruct I.
  - rewrite E in I. destruct I as [<-|[]]. exists body, m. auto.
Qed.

Lemma serialise_string (value : json) (s : jsstring) :
  serialise value = JString s -> value = JString s.
Proof.
  destruct value as [|b|x|s'|items|fields]; try discriminate.
  - destruct x as [q| |negative]; discriminate.
  - intros E. exact E.
Qed.

(** Only the mock body is written as the mock body. *)
Lemma serialise_mock (data : json) :
  serialise data = mockResponseBody -> data = mockResponseBody.
Proof.
  unfold mockResponseBody.
  destruct data as [|b|x|s|items|fields]; try discriminate.
  - destruct x as [q| |negative]; discriminate.
  - cbn [serialise]. intros E. injection E as E.
    destruct fields as [|[k1 v1] [|[k2 v2] [|more fields]]]; try discriminate E.
    cbn [map fst snd] in E. injection E as K1 V1 K2 V2. subst k1 k2.
    apply serialise_string in V1. subst v1.
    destruct v2 as [|b|x|s|items|fields]; try discriminate V2.
    + destruct x as [q| |negative]; discriminate V2.
    + cbn [serialise] in V2. injection V2 as V2.
      destruct items as [|item [|more items]]; try discriminate V2.
      cbn [map] in V2. injection V2 as V2.
      apply serialise_string in V2. subst item. reflexivity.
Qed.

Lemma mock_is_not_an_error_body :
  mkResponse 500 internalErrorBody <> mkResponse 200 mockResponseBody.
Proof. discriminate. Qed.

(** C8, as the code has it: when [fetch] throws a [TypeError] whose
    message contains "fetch", the handler answers with the mock fallback
    and status 200; when the Python service responds with a status that is
    not ok, it answers 500 with [Internal server error], and not the mock.
    The mock body with status 200 is answered in these cases only: [fetch]
    threw such an error; the Python service answered ok with that very
    body, which is passed through; or reading the body of the request or
    of the upstream response threw such an error. *)
Theorem POST_mock_fallback (w : world) (request : nextRequest) :
  (forall e, fetchThrew w request e -> isFetchTypeError e -> answersMock w request)
  /\ (forall up, fetchResolved w request up -> ok up = false ->
        fst (runPOST w request) = Ok (mkResponse 500 internalErrorBody)
        /\ ~ answersMock w request)
  /\ (answersMock w request ->
        (exists e, fetchThrew w request e /\ isFetchTypeError e)
        \/ (exists up, fetchResolved w request up /\ ok up = true
                       /\ jsonBody up = Ok mockResponseBody)
        \/ (exists e, isFetchTypeError e
                      /\ (requestJson request = Throw e
                          \/ exists up, fetchResolved w request up /\ ok up = true
                                        /\ jsonBody up = Throw e))).
Proof.
  unfold answersMock. split; [|split].
  - intros e T FT. rewrite (fetchThrew_inv _ _ _ T). simpl.
    f_equal. apply errorResponse_mock_iff, FT.
  - intros up Res O.
    destruct (fetchResolved_inv _ _ _ Res) as [body [m [R [C F]]]].
    rewrite (POST_upstream_not_ok _ _ _ _ _ R C F O). simpl.
    split; [reflexivity|]. intros E. injection E. discriminate.
  - intros A.
    destruct (requestJson request) as [body|e] eqn:R.
    + destruct (chatRequestSchema_check body) as [issue|m] eqn:C.
      * rewrite (POST_invalid_body _ _ _ _ R C) in A. discriminate.
      * destruct (fetchImpl w (chatCall w m)) as [up|e] eqn:F.
        -- assert (Res : fetchResolved w request up).
           { exists (chatCall w m). split; [|exact F].
             destruct (POST_calls w request) as [E|[b' [m' [R' [C' E]]]]].
             - exfalso. destruct (ok up) eqn:O.
               + destruct (jsonBody up) as [data|e] eqn:J.
                 * rewrite (POST_upstream_ok _ _ _ _ _ _ R C F O J) in E. discriminate.
                 * rewrite (POST_upstream_unreadable _ _ _ _ _ _ R C F O J) in E.
                   discriminate.
               + rewrite (POST_upstream_not_ok _ _ _ _ _ R C F O) in E. discriminate.
             - rewrite R in R'. injection R' as <-. rewrite C in C'.
               injection C' as <-. rewrite E. left. reflexivity. }
           destruct (ok up) eqn:O.
           ++ destruct (jsonBody up) as [data|e] eqn:J.
              ** rewrite (POST_upstream_ok _ _ _ _ _ _ R C F O J) in A.
                 cbn [fst] in A. injection A as A. apply serialise_mock in A.
                 subst data. right. left. exists up. auto.
              ** rewrite (POST_upstream_unreadable _ _ _ _ _ _ R C F O J) in A.
                 simpl in A. injection A as A. apply errorResponse_mock_iff in A.
                 right. right. exists e. split; [exact A|].
                 right. exists up. auto.
           ++ rewrite (POST_upstream_not_ok _ _ _ _ _ R C F O) in A. discriminate.
        -- pose proof (POST_fetch_throws _ _ _ _ _ R C F) as E.
           rewrite E in A. simpl in A. injection A as A.
           apply errorResponse_mock_iff in A.
           left. exists e. split; [|exact A].
           exists (chatCall w m). rewrite E. split; [left; reflexivity | exact F].
    + rewrite (POST_unreadable_request _ _ _ R) in A. simpl in A.
      injection A as A. apply errorResponse_mock_iff in A.
      right. right. exists e. split; [exact A | left; reflexivity].
Qed.

Lemma POST_mock_fallback_witness :
  answersMock serviceDown (requestWith [(lit "message", JString (lit "What is EBITDA?"))]).
Proof.
  refine (proj1 (POST_mock_fallback serviceDown
                   (requestWith [(lit "message", JString (lit "What is EBITDA?"))]))
                (mkError TypeError (lit "fetch failed")) _ _).
  - exists (chatCall serviceDown (lit "What is EBITDA?")). split.
    + vm_compute. left. reflexivity.
    + reflexivity.
  - split; reflexivity.
Defined.

(** C8 as stated fails: the mock body is also what the handler answers
    when the Python service itself replies with it, and then [fetch] has
    thrown nothing. *)
Lemma POST_mock_passed_through :
  ~ (forall (w : world) (request : nextRequest),
       answersMock w request <->
       exists e, fetchThrew w request e /\ isFetchTypeError e).
Proof.
  intros H.
  destruct (proj1 (H (serviceAnswering 200 mockResponseBody)
                     (requestWith [(lit "message", JString (lit "hi"))])))
    as [e [[c [_ F]] _]].
  - vm_compute. reflexivity.
  - discriminate.
Qed.

(** The tests of the route. *)
Example POST_tests :
  fst (runPOST serviceDown (requestWith [(lit "message", JString (lit "What is EBITDA?"))]))
  = Ok (mkResponse 200 mockResponseBody)
  /\ fst (runPOST (serviceAnswering 500 JNull)
                  (requestWith [(lit "message", JString (lit "What is EBITDA?"))]))
     = Ok (mkResponse 500 internalErrorBody)
  /\ fst (runPOST serviceDown
                  (mkRequest (Throw (mkError SyntaxError (lit "Unexpected token")))))
     = Ok (mkResponse 500 internalErrorBody).
Proof. repeat split; vm_compute; reflexivity. Qed.

End RouteFacts.

(** ** The FAQ matching core *)

Section FaqFacts.
Import Faq.
Local Open Scope faq_scope.

(** *** The selector *)

Lemma select_answered (r : MatchResult) (threshold : R) :
  (threshold <= score r)%R ->
  select r threshold = Answered (answer (entry r)) (source_tag (entry r)).
Proof. intros H. unfold select. destruct (Rle_dec threshold (score r)); [reflexivity | contradiction]. Qed.

Lemma select_no_match (r : MatchResult) (threshold : R) :
  (score r < threshold)%R -> select r threshold = NoMatch.
Proof. intros H. unfold select. destruct (Rle_dec threshold (score r)); [lra | reflexivity]. Qed.

(** C4: [select] answers with the entry's answer and source tag exactly
    when the score is at least the threshold, and gives [NoMatch] exactly
    when the score is strictly below it; the threshold is a field of the
    configuration, 0.3 by default, and the outcome of a query is decided
    against the configured value. *)
Theorem select_threshold (r : MatchResult) (threshold : R) :
  (select r threshold = Answered (answer (entry r)) (source_tag (entry r))
   <-> (threshold <= score r)%R)
  /\ (select r threshold = NoMatch <-> (score r < threshold)%R)
  /\ similarity_threshold default_config = (3 / 10)%R
  /\ (forall cfg, similarity_threshold (with_threshold threshold cfg) = threshold)
  /\ (forall cfg, decide_outcome cfg (Some r) = select r (similarity_threshold cfg)).
Proof.
  split; [|split; [|split; [|split]]]; try reflexivity.
  - split; [|apply select_answered].
    unfold select. destruct (Rle_dec threshold (score r)); [trivial | discriminate].
  - split; [|apply select_no_match].
    unfold select. destruct (Rle_dec threshold (score r)); [discriminate | lra].
Qed.

(** *** No step of the computation raises *)

Lemma forEach_total {A B} (f : A -> fallible B) (l : list A) :
  (forall a, In a l -> exists b, f a = Done b) ->
  exists bs, forEach f l = Done bs /\ Forall2 (fun a b => f a = Done b) l bs.
Proof.
  induction l as [|a l IH]; intros H; simpl.
  - exists []. split; [reflexivity | constructor].
  - destruct (H a (or_introl eq_refl)) as [b Fb].
    destruct IH as [bs [E F2]]; [intros x I; apply H; right; exact I|].
    exists (b :: bs). rewrite Fb, E. simpl. split; [reflexivity|].
    constructor; assumption.
Qed.

Lemma divide_nonzero (x y : R) : y <> 0%R -> divide x y = Done (x / y)%R.
Proof. intros H. unfold divide. destruct (Req_dec_T y 0); [contradiction | reflexivity]. Qed.

Lemma l2_normalize_total (v : list R) : exists u, l2_normalize v = Done u.
Proof.
  unfold l2_normalize. destruct (Req_dec_T (magnitude v) 0) as [_|NZ].
  - exists v. reflexivity.
  - destruct (forEach_total (fun x => divide x (magnitude v)) v) as [u [E _]].
    + intros x _. exists (x / magnitude v)%R. apply divide_nonzero, NZ.
    + exists u. exact E.
Qed.

Lemma cosine_similarity_total (u v : list R) : exists s, cosine_similarity u v = Done s.
Proof.
  unfold cosine_similarity.
  destruct (Req_dec_T (magnitude u) 0) as [_|NU]; [exists 0%R; reflexivity|].
  destruct (Req_dec_T (magnitude v) 0) as [_|NV]; [exists 0%R; reflexivity|].
  eexists. apply divide_nonzero. apply Rmult_integral_contrapositive. split; assumption.
Qed.

Lemma idf_total tokenize (kb : list FAQEntry) (t : term) :
  exists w, idf tokenize kb t = Done w.
Proof.
  unfold idf. rewrite divide_nonzero.
  - simpl. eexists. reflexivity.
  - pose proof (pos_INR (document_frequency tokenize kb t)). lra.
Qed.

Section Fitted.

Variable tokenize : string -> list token.
Variable cap_vocabulary : nat -> list term -> list term.

Lemma score_all_total (m : Model) (qv : list R) :
  exists scored, score_all m qv = Done scored.
Proof.
  unfold score_all.
  destruct (forEach_total
              (fun ev => s <- cosine_similarity qv (snd ev) ;; Done (fst ev, s))
              (fitted m)) as [scored [E _]].
  - intros ev _. destruct (cosine_similarity_total qv (snd ev)) as [s Es].
    exists (fst ev, s). rewrite Es. reflexivity.
  - exists scored. exact E.
Qed.

(** The query phase raises on no model and no text. *)
Lemma match_query_total (m : Model) (text : string) :
  exists b, match_query tokenize m text = Done b.
Proof.
  unfold match_query, project.
  destruct (l2_normalize_total
              (weigh (vocabulary m) (idf_weights m) (doc_terms tokenize text)))
    as [qv ->].
  simpl. destruct (score_all_total m qv) as [scored ->]. simpl.
  eexists. reflexivity.
Qed.

(** The fit phase raises on no knowledge base: the vocabulary is the one
    built from the questions, and every entry gets its vector, in the order
    of the knowledge base. *)
Lemma fit_total (cfg : Config) (kb : list FAQEntry) :
  exists m, fit tokenize cap_vocabulary cfg kb = Done m
            /\ vocabulary m = build_vocabulary tokenize cap_vocabulary cfg kb
            /\ map fst (fitted m) = kb.
Proof.
  unfold fit.
  destruct (forEach_total (idf tokenize kb)
              (build_vocabulary tokenize cap_vocabulary cfg kb)) as [idfs [-> _]].
  { intros t _. apply idf_total. }
  simpl.
  match goal with
  | |- context [forEach ?f kb] =>
      destruct (forEach_total f kb) as [vectors [-> F2]]
  end.
  { intros e _.
    destruct (l2_normalize_total
                (weigh (build_vocabulary tokenize cap_vocabulary cfg kb) idfs
                       (doc_terms tokenize (question e)))) as [v ->].
    eexists. reflexivity. }
  simpl. eexists. split; [reflexivity|]. split; [reflexivity|]. simpl.
  induction F2 as [|e ev kb' vs H _ IH]; simpl; [reflexivity|].
  f_equal; [|exact IH].
  destruct (l2_normalize _) in H; simpl in H; [|discriminate].
  injection H as <-. reflexivity.
Qed.

Lemma startup_total (cfg : Config) (kb : list FAQEntry) :
  exists svc, startup tokenize cap_vocabulary cfg kb = Done svc
              /\ config svc = cfg
              /\ vocabulary (model svc) = build_vocabulary tokenize cap_vocabulary cfg kb
              /\ map fst (fitted (model svc)) = kb
              /\ log svc = [].
Proof.
  unfold startup. destruct (fit_total cfg kb) as [m [-> [V F]]].
  simpl. eexists. repeat split; assumption.
Qed.

End Fitted.

(** *** A query with no term of the vocabulary *)

Lemma dot_zero (v : list R) : Forall (fun x => x = 0%R) v -> dot v v = 0%R.
Proof. induction 1 as [|x v -> _ IH]; simpl; [reflexivity | rewrite IH; lra]. Qed.

Lemma magnitude_zero (v : list R) : Forall (fun x => x = 0%R) v -> magnitude v = 0%R.
Proof. intros H. unfold magnitude. rewrite (dot_zero _ H). apply sqrt_0. Qed.

Lemma cosine_similarity_zero (u v : list R) :
  magnitude u = 0%R -> cosine_similarity u v = Done 0%R.
Proof.
  intros H. unfold cosine_similarity.
  destruct (Req_dec_T (magnitude u) 0); [reflexivity | contradiction].
Qed.

Lemma argmax_In (scored : list (FAQEntry * R)) (r : MatchResult) :
  argmax scored = Some r -> In (entry r, score r) scored.
Proof.
  revert r; induction scored as [|[e s] rest IH]; intros r; simpl; [discriminate|].
  destruct (argmax rest) as [later|].
  - destruct (Rlt_dec s (score later)); intros E; injection E as <-.
    + right. apply IH. reflexivity.
    + left. reflexivity.
  - intros E; injection E as <-. left. reflexivity.
Qed.

Lemma argmax_nonempty (scored : list (FAQEntry * R)) :
  scored <> [] -> exists r, argmax scored = Some r.
Proof.
  destruct scored as [|[e s] rest]; [contradiction|]. intros _. simpl.
  destruct (argmax rest) as [later|]; [|eexists; reflexivity].
  destruct (Rlt_dec s (score later)); eexists; reflexivity.
Qed.

Section OutOfVocabulary.

Variable tokenize : string -> list token.

Lemma weigh_out_of_vocabulary (m : Model) (text : string) :
  outOfVocabulary tokenize m text ->
  Forall (fun x => x = 0%R)
         (weigh (vocabulary m) (idf_weights m) (doc_terms tokenize text)).
Proof.
  intros O. unfold weigh. apply Forall_forall. intros x I.
  apply in_map_iff in I as [[t w] [<- I]]. simpl.
  apply in_combine_l in I. unfold term_frequency.
  rewrite (proj1 (count_occ_not_In term_eq_dec _ t)).
  - simpl. lra.
  - intros J. exact (O t J I).
Qed.

Lemma project_out_of_vocabulary (m : Model) (text : string) :
  outOfVocabulary tokenize m text ->
  exists qv, project tokenize m text = Done qv
             /\ Forall (fun x => x = 0%R) qv.
Proof.
  intros O. pose proof (weigh_out_of_vocabulary m text O) as Z.
  eexists. split; [|exact Z].
  unfold project, l2_normalize.
  destruct (Req_dec_T _ 0) as [_|NZ]; [reflexivity|].
  exfalso. apply NZ, magnitude_zero, Z.
Qed.

Lemma score_all_zero (m : Model) (qv : list R) :
  magnitude qv = 0%R ->
  score_all m qv = Done (map (fun ev => (fst ev, 0%R)) (fitted m)).
Proof.
  intros Z. unfold score_all. induction (fitted m) as [|ev l IH]; simpl; [reflexivity|].
  rewrite (cosine_similarity_zero _ _ Z), IH. reflexivity.
Qed.

(** The match of such a query: the scores are all 0. *)
Lemma match_query_out_of_vocabulary (m : Model) (text : string) :
  outOfVocabulary tokenize m text ->
  match_query tokenize m text
  = Done (argmax (map (fun ev => (fst ev, 0%R)) (fitted m))).
Proof.
  intros O. destruct (project_out_of_vocabulary m text O) as [qv [P Z]].
  unfold match_query. rewrite P. simpl.
  rewrite (score_all_zero m qv (magnitude_zero _ Z)). reflexivity.
Qed.

Lemma zero_scores_best (l : list (FAQEntry * list R)) (r : MatchResult) :
  argmax (map (fun ev => (fst ev, 0%R)) l) = Some r -> score r = 0%R.
Proof.
  intros A. apply argmax_In in A. apply in_map_iff in A as [ev [E _]].
  injection E as _ <-. reflexivity.
Qed.

Lemma empty_text_out_of_vocabulary (m : Model) (text : string) :
  tokenize text = [] -> outOfVocabulary tokenize m text.
Proof. intros E t I. unfold doc_terms in I. rewrite E in I. destruct I. Qed.

End OutOfVocabulary.


(** The service fitted on the one entry of the concrete scenario. *)
Lemma ebitda_service (threshold : R) :
  let cfg := with_threshold threshold default_config in
  exists svc,
    startup sample_tokenize keep_first cfg [ebitdaEntry] = Done svc
    /\ config svc = cfg
    /\ vocabulary (model svc)
       = [["what"]; ["is"]; ["ebitda"]; ["what"; "is"]; ["is"; "ebitda"]]%string
    /\ map fst (fitted (model svc)) = [ebitdaEntry].
Proof.
  intros cfg.
  destruct (startup_total sample_tokenize keep_first cfg [ebitdaEntry])
    as [svc [E [C [V [F _]]]]].
  exists svc. split; [exact E|]. split; [exact C|]. split; [|exact F].
  rewrite V. unfold build_vocabulary.
  replace (nodup term_eq_dec
             (flat_map (fun e => doc_terms sample_tokenize (question e)) [ebitdaEntry]))
    with [["what"]; ["is"]; ["ebitda"]; ["what"; "is"]; ["is"; "ebitda"]]%string
    by (vm_compute; reflexivity).
  reflexivity.
Qed.


(** The threshold has to be positive for that outcome: the rule of the
    selector answers at a score that is not below the threshold, so at a
    threshold of 0 the best score of the empty query, 0, is answered. *)
Lemma out_of_vocabulary_answered_at_zero :
  ~ (forall (tokenize : string -> list token)
            (cap_vocabulary : nat -> list term -> list term)
            (cfg : Config) (kb : list FAQEntry) (svc : Service) (now text : string),
       startup tokenize cap_vocabulary cfg kb = Done svc ->
       outOfVocabulary tokenize (model svc) text ->
       exists b, fst (answer_query tokenize now text svc) = Done (mkReply b NoMatch)).
Proof.
  intros H.
  destruct (ebitda_service 0%R) as [svc [E [C [_ F]]]].
  assert (O : outOfVocabulary sample_tokenize (model svc) "").
  { apply empty_text_out_of_vocabulary. reflexivity. }
  destruct (H sample_tokenize keep_first _ _ svc "2025-01-15T10:30:45"%string
              ""%string E O) as [b A].
  unfold answer_query in A.
  rewrite (match_query_out_of_vocabulary _ _ _ O) in A. simpl in A.
  injection A as B D.
  destruct (argmax_nonempty (map (fun ev => (fst ev, 0%R)) (fitted (model svc))))
    as [r R].
  { destruct (fitted (model svc)); simpl in *; discriminate. }
  rewrite R in D. simpl in D. rewrite C in D. simpl in D.
  rewrite select_answered in D; [discriminate|].
  rewrite (zero_scores_best _ _ R). lra.
Qed.

(** *** Calls do not influence one another *)

Section Determinism.

Variable tokenize : string -> list token.

(** What a call returns is a function of the model, the configuration and
    the text: neither the time nor the log enters it. *)
Lemma answer_query_reply (now text : string) (svc : Service) :
  fst (answer_query tokenize now text svc)
  = (b <- match_query tokenize (model svc) text ;;
     Done (mkReply b (decide_outcome (config svc) b))).
Proof.
  unfold answer_query.
  destruct (match_query tokenize (model svc) text); reflexivity.
Qed.

(** A call leaves the model and the configuration as they are, and adds
    one record to the log. *)
Lemma answer_query_state (now text : string) (svc : Service) :
  let svc' := snd (answer_query tokenize now text svc) in
  model svc' = model svc /\ config svc' = config svc
  /\ length (log svc') = S (length (log svc)).
Proof.
  unfold answer_query.
  destruct (match_query_total tokenize (model svc) text) as [b ->]. simpl.
  rewrite length_app. simpl. repeat split. lia.
Qed.

Lemma serve_state (calls : list (string * string)) (svc : Service) :
  model (serve tokenize calls svc) = model svc
  /\ config (serve tokenize calls svc) = config svc
  /\ length (log (serve tokenize calls svc)) = length (log svc) + length calls.
Proof.
  revert svc; induction calls as [|[now text] rest IH]; intros svc; simpl.
  - repeat split. lia.
  - destruct (IH (snd (answer_query tokenize now text svc))) as [M [C L]].
    destruct (answer_query_state now text svc) as [M' [C' L']].
    rewrite M, C, L, M', C', L'. repeat split. lia.
Qed.

End Determinism.

End FaqFacts.

(** ** prisma/seed.ts *)

Section SeedFacts.
Import Js Articles Seed.

Lemma findUnique_ids (key : jsstring) (rows : table) :
  findUnique key rows = None <-> existsb (jsstring_eqb key) (map id rows) = false.
Proof.
  unfold findUnique, hasId. induction rows as [|r rows IH]; simpl; [tauto|].
  destruct (jsstring_eqb (id r) key) eqn:E.
  - apply jsstring_eqb_eq in E. rewrite E.
    rewrite (proj2 (jsstring_eqb_eq key key) eq_refl). simpl. split; discriminate.
  - destruct (jsstring_eqb key (id r)) eqn:E'.
    + apply jsstring_eqb_eq in E'. rewrite E' in E.
      rewrite (proj2 (jsstring_eqb_eq _ _) eq_refl) in E. discriminate.
    + simpl. exact IH.
Qed.

(** An upsert with the empty update leaves a table that has the id as it
    is. *)
Lemma upsert_present (key : jsstring) (create : Article) (rows : table) :
  findUnique key rows <> None -> upsert key emptyUpdate create rows = rows.
Proof.
  intros H. unfold upsert. destruct (findUnique key rows); [|contradiction].
  clear H. induction rows as [|r rows IH]; simpl; [reflexivity|].
  rewrite IH. unfold emptyUpdate. destruct (hasId key r); reflexivity.
Qed.

Lemma upsert_absent (key : jsstring) (update : Article -> Article)
    (create : Article) (rows : table) :
  findUnique key rows = None -> upsert key update create rows = rows ++ [create].
Proof. intros H. unfold upsert. rewrite H. reflexivity. Qed.

(** Seeding appends the missing articles and touches nothing else. *)
Lemma seedWith_appends (toSeed : list Article) (rows : table) :
  seedWith toSeed rows = rows ++ missingFrom toSeed (map id rows).
Proof.
  unfold seedWith. revert rows. induction toSeed as [|a rest IH]; intros rows; simpl.
  - rewrite app_nil_r. reflexivity.
  - destruct (existsb (jsstring_eqb (id a)) (map id rows)) eqn:E.
    + rewrite upsert_present; [apply IH|].
      intros N. apply findUnique_ids in N. congruence.
    + rewrite upsert_absent by (apply findUnique_ids; exact E).
      rewrite IH, map_app, <- app_assoc. reflexivity.
Qed.

Lemma missingFrom_covered (toSeed : list Article) (present : list jsstring) :
  (forall a, In a toSeed -> In (id a) present) -> missingFrom toSeed present = [].
Proof.
  revert present; induction toSeed as [|a rest IH]; intros present H; simpl; [reflexivity|].
  assert (E : existsb (jsstring_eqb (id a)) present = true).
  { apply existsb_exists. exists (id a). split; [apply H; left; reflexivity|].
    apply jsstring_eqb_eq. reflexivity. }
  rewrite E. apply IH. intros b I. apply H. right. exact I.
Qed.

Lemma missingFrom_covers (toSeed : list Article) (present : list jsstring) a :
  In a toSeed ->
  In (id a) (present ++ map id (missingFrom toSeed present)).
Proof.
  revert present; induction toSeed as [|b rest IH]; intros present I; [destruct I|].
  simpl. destruct (existsb (jsstring_eqb (id b)) present) eqn:E.
  - destruct I as [->|I]; [|apply IH, I].
    apply existsb_exists in E as [k [K E]]. apply jsstring_eqb_eq in E.
    rewrite E. apply in_or_app. left. exact K.
  - simpl. destruct I as [->|I].
    + apply in_or_app. right. left. reflexivity.
    + specialize (IH (present ++ [id b]) I). rewrite <- app_assoc in IH. exact IH.
Qed.

Lemma findUnique_app_left (key : jsstring) (rows more : table) r :
  findUnique key rows = Some r -> findUnique key (rows ++ more) = Some r.
Proof.
  unfold findUnique. induction rows as [|x rows IH]; simpl; [discriminate|].
  destruct (hasId key x); [trivial | exact IH].
Qed.

Lemma findUnique_found (key : jsstring) (rows : table) :
  In key (map id rows) -> findUnique key rows <> None.
Proof.
  intros I N. apply findUnique_ids in N.
  assert (E : existsb (jsstring_eqb key) (map id rows) = true).
  { apply existsb_exists. exists key. split; [exact I|]. apply jsstring_eqb_eq. reflexivity. }
  congruence.
Qed.

(** X1: running the seed script a second time changes nothing, whatever
    the table held before the first run. *)
Theorem main_idempotent (rows : table) : main (main rows) = main rows.
Proof.
  unfold main. rewrite (seedWith_appends articles (seedWith articles rows)).
  rewrite missingFrom_covered; [apply app_nil_r|].
  intros a I. rewrite seedWith_appends, map_app. apply missingFrom_covers, I.
Qed.

(** X2: the seed script never changes or removes a row: the table
    afterwards is the table before followed by the seed articles whose id
    was missing; a row found by its id before is found unchanged after
    (an edited seed article is not reset), and every seed id is found
    after. *)
Theorem main_preserves_rows (rows : table) :
  main rows = rows ++ missingFrom articles (map id rows)
  /\ (forall key r, findUnique key rows = Some r -> findUnique key (main rows) = Some r)
  /\ (forall a, In a articles -> findUnique (id a) (main rows) <> None)
  /\ main [] = articles.
Proof.
  assert (E : main rows = rows ++ missingFrom articles (map id rows))
    by apply seedWith_appends.
  split; [exact E|]. split; [|split].
  - intros key r F. rewrite E. apply findUnique_app_left, F.
  - intros a I. apply findUnique_found. rewrite E, map_app.
    apply missingFrom_covers, I.
  - vm_compute. reflexivity.
Qed.

End SeedFacts.

(** ** app/api/articles/route.ts and lib/query/articles.ts *)

Section ArticlesRouteFacts.
Import Js Route Articles ArticlesRoute.

Lemma querySchema_check_sort (query sort : jsstring) (o : sortOrder) :
  sort = sortName o -> querySchema_check query sort = inr (mkParams query o).
Proof. intros ->. destruct o; reflexivity. Qed.

Lemma querySchema_check_invalid (query sort : jsstring) :
  sort <> lit "asc" -> sort <> lit "desc" ->
  querySchema_check query sort = inl (InvalidEnumValue sort).
Proof.
  intros A D. unfold querySchema_check.
  destruct (jsstring_eqb sort (lit "asc")) eqn:EA;
    [apply jsstring_eqb_eq in EA; contradiction|].
  destruct (jsstring_eqb sort (lit "desc")) eqn:ED;
    [apply jsstring_eqb_eq in ED; contradiction|].
  reflexivity.
Qed.

(** X3: a [sort] parameter that is present, not empty and neither [asc]
    nor [desc] is answered with status 400 and [Invalid parameters], and
    the database is not queried; in every other case the database is
    queried exactly once, in the order asked, [desc] when the parameter
    is missing or empty. *)
Theorem GET_sort_parameter (w : articlesWorld) (params : searchParams) :
  let sort := orElse (searchParamsGet params (lit "sort")) (lit "desc") in
  (sort <> lit "asc" -> sort <> lit "desc" ->
     GET w params
     = (mkArticlesResponse 400
          (ErrorObject
             (JObject [(lit "error", JString (lit "Invalid parameters"));
                       (lit "details",
                        JString (queryErrorMessage w (InvalidEnumValue sort)))])),
        []))
  /\ (forall o, sort = sortName o -> snd (GET w params) = [o])
  /\ (searchParamsGet params (lit "sort") = None
      \/ searchParamsGet params (lit "sort") = Some (lit "") ->
      snd (GET w params) = [desc]).
Proof.
  intros sort. subst sort. split; [|split].
  - intros A D. unfold GET, tryGET. rewrite (querySchema_check_invalid _ _ A D).
    reflexivity.
  - intros o E. unfold GET, tryGET. rewrite (querySchema_check_sort _ _ o E).
    unfold getArticlesIn. simpl. destruct (findManyImpl w o); reflexivity.
  - intros [E|E]; unfold GET, tryGET; rewrite E; simpl;
      unfold getArticlesIn; destruct (findManyImpl w desc); reflexivity.
Qed.

Lemma GET_sort_parameter_witness :
  GET (worldOver sampleTable) [(lit "sort", lit "newest")]
  = (mkArticlesResponse 400
       (ErrorObject
          (JObject [(lit "error", JString (lit "Invalid parameters"));
                    (lit "details", JString (lit "zod"))])),
     []).
Proof.
  refine (proj1 (GET_sort_parameter (worldOver sampleTable) [(lit "sort", lit "newest")])
                _ _); discriminate.
Defined.

(** X4: when the database answers with its rows in date order, the
    handler answers 200 with rows of the database, still in date order;
    for a query that is not empty they are exactly the rows whose title or
    summary contains it when case is ignored, and with no query (or an
    empty one) they are all the rows. *)
Theorem GET_lists_articles (w : articlesWorld) (params : searchParams)
    (o : sortOrder) (rows : list Article) :
  orElse (searchParamsGet params (lit "sort")) (lit "desc") = sortName o ->
  findManyImpl w o = Ok rows ->
  Sorted (inOrder o) rows ->
  let query := orElse (searchParamsGet params (lit "query")) (lit "") in
  exists found,
    GET w params = (mkArticlesResponse 200 (ArticleRows found), [o])
    /\ Sorted (inOrder o) found
    /\ (query = [] -> found = rows)
    /\ (query <> [] ->
          forall a, In a found <->
                    In a rows
                    /\ (containsIgnoringCase (toLowerCaseImpl w) (title a) query
                        \/ containsIgnoringCase (toLowerCaseImpl w) (summary a) query)).
Proof.
  intros E F S query.
  exists (getArticles (fun _ => rows) (toLowerCaseImpl w) query o).
  split; [|split; [|split]].
  - unfold GET, tryGET. fold query. rewrite (querySchema_check_sort _ _ o E).
    unfold getArticlesIn. simpl. rewrite F. reflexivity.
  - destruct query as [|c q]; [exact S|].
    rewrite getArticles_query by discriminate. apply filter_keeps_order, S.
  - intros ->. reflexivity.
  - intros NE a. rewrite (getArticles_query _ _ _ _ NE), filter_In, matchesQuery_spec.
    reflexivity.
Qed.

Lemma GET_lists_articles_witness :
  exists found,
    GET (worldOver sampleTable) [(lit "query", lit "CASH"); (lit "sort", lit "asc")]
    = (mkArticlesResponse 200 (ArticleRows found), [asc])
    /\ Sorted (inOrder asc) found.
Proof.
  destruct (GET_lists_articles (worldOver sampleTable)
              [(lit "query", lit "CASH"); (lit "sort", lit "asc")] asc
              (sortingClient sampleTable asc) eq_refl eq_refl
              (proj2 (sortingClient_answers sampleTable asc)))
    as [found [G [S _]]].
  exists found. split; [exact G | exact S].
Defined.

(** X5: when the database throws, the handler answers 500 with
    [Internal server error] and nothing of the error that was thrown. *)
Theorem GET_database_failure (w : articlesWorld) (params : searchParams)
    (o : sortOrder) (e : jsError) :
  orElse (searchParamsGet params (lit "sort")) (lit "desc") = sortName o ->
  findManyImpl w o = Throw e ->
  errClass e <> ZodError ->
  GET w params
  = (mkArticlesResponse 500
       (ErrorObject (JObject [(lit "error", JString (lit "Internal server error"))])),
     [o]).
Proof.
  intros E F C. unfold GET, tryGET. rewrite (querySchema_check_sort _ _ o E).
  unfold getArticlesIn. simpl. rewrite F. unfold catchGET, isClass.
  destruct (errClass e); try reflexivity. contradiction.
Qed.

Lemma GET_database_failure_witness :
  GET databaseDown []
  = (mkArticlesResponse 500
       (ErrorObject (JObject [(lit "error", JString (lit "Internal server error"))])),
     [desc]).
Proof.
  refine (GET_database_failure databaseDown [] desc
            (mkError PlainError (lit "database is locked")) eq_refl eq_refl _).
  discriminate.
Defined.

(** *** Narrowing a search *)

Lemma includes_trans (s p q : jsstring) :
  includes s q = true -> includes q p = true -> includes s p = true.
Proof.
  rewrite !includes_spec. intros [b [a ->]] [b' [a' ->]].
  exists (b ++ b'), (a' ++ a). rewrite <- !app_assoc. reflexivity.
Qed.

(** X6: a longer query narrows the search: when the lowercased query
    [shorter] occurs in the lowercased query [longer], every article
    returned for [longer] is returned for [shorter], in the same relative
    order. *)
Theorem getArticles_narrows (findMany : sortOrder -> list Article)
    (toLowerCase : jsstring -> jsstring) (shorter longer : jsstring)
    (sort : sortOrder) :
  shorter <> [] -> longer <> [] ->
  includes (toLowerCase longer) (toLowerCase shorter) = true ->
  getArticles findMany toLowerCase longer sort
  = filter (matchesQuery toLowerCase (toLowerCase longer))
           (getArticles findMany toLowerCase shorter sort)
  /\ incl (getArticles findMany toLowerCase longer sort)
          (getArticles findMany toLowerCase shorter sort).
Proof.
  intros S L I.
  assert (M : forall a, matchesQuery toLowerCase (toLowerCase longer) a = true ->
                        matchesQuery toLowerCase (toLowerCase shorter) a = true).
  { intros a. unfold matchesQuery. rewrite !orb_true_iff.
    intros [H|H]; [left|right]; exact (includes_trans _ _ _ H I). }
  assert (E : getArticles findMany toLowerCase longer sort
              = filter (matchesQuery toLowerCase (toLowerCase longer))
                       (getArticles findMany toLowerCase shorter sort)).
  { rewrite !getArticles_query by assumption.
    induction (findMany sort) as [|a l IH]; simpl; [reflexivity|].
    destruct (matchesQuery toLowerCase (toLowerCase longer) a) eqn:ML.
    - rewrite (M a ML). simpl. rewrite ML, IH. reflexivity.
    - destruct (matchesQuery toLowerCase (toLowerCase shorter) a); simpl;
        [rewrite ML|]; exact IH. }
  split; [exact E|]. rewrite E. intros a H. apply filter_In in H. tauto.
Qed.

Lemma getArticles_narrows_witness :
  incl (getArticles (sortingClient sampleTable) asciiLower (lit "Cash Flow") desc)
       (getArticles (sortingClient sampleTable) asciiLower (lit "cash") desc).
Proof.
  refine (proj2 (getArticles_narrows (sortingClient sampleTable) asciiLower
                   (lit "cash") (lit "Cash Flow") desc _ _ _)).
  - discriminate.
  - discriminate.
  - vm_compute. reflexivity.
Defined.

End ArticlesRouteFacts.

(** ** app/api/chat/route.ts, further *)

Section RouteMoreFacts.
Import Js Route.

Lemma errorResponse_status (e : jsError) :
  responseStatus (errorResponse e) = 200
  \/ responseStatus (errorResponse e) = 400
  \/ responseStatus (errorResponse e) = 500.
Proof.
  unfold errorResponse.
  destruct (isClass ZodError e); [right; left; reflexivity|].
  destruct (isClass TypeError e && includes (errMessage e) (lit "fetch"));
    [left | right; right]; reflexivity.
Qed.

Lemma errorResponse_internal (e : jsError) :
  errClass e <> ZodError -> ~ isFetchTypeError e ->
  errorResponse e = mkResponse 500 internalErrorBody.
Proof.
  intros Z F. unfold errorResponse, isClass, isFetchTypeError in *.
  destruct e as [[| | |] msg]; simpl in *; try reflexivity; [contradiction|].
  destruct (includes msg (lit "fetch")); [|reflexivity].
  exfalso. apply F. split; reflexivity.
Qed.

(** The outcome of the handler, path by path. *)
Lemma POST_outcome (w : world) (request : nextRequest) :
  (exists e, requestJson request = Throw e
             /\ runPOST w request = (Ok (errorResponse e), []))
  \/ (exists body issue,
        requestJson request = Ok body
        /\ chatRequestSchema_check body = inl issue
        /\ runPOST w request
           = (Ok (mkResponse 400 (invalidRequestBody (zodErrorMessage w issue))), []))
  \/ (exists body message response,
        requestJson request = Ok body
        /\ chatRequestSchema_check body = inr message
        /\ runPOST w request = (Ok response, [chatCall w message])
        /\ (responseStatus response = 200 \/ responseStatus response = 400
            \/ responseStatus response = 500)).
Proof.
  destruct (requestJson request) as [body|e] eqn:R.
  - destruct (chatRequestSchema_check body) as [issue|message] eqn:C.
    + right. left. exists body, issue.
      split; [reflexivity|]. split; [exact C|].
      exact (POST_invalid_body _ _ _ _ R C).
    + right. right. exists body, message.
      destruct (fetchImpl w (chatCall w message)) as [up|e] eqn:F.
      * destruct (ok up) eqn:O.
        -- destruct (jsonBody up) as [data|e] eqn:J.
           ++ eexists. split; [reflexivity|]. split; [exact C|]. split.
              ** exact (POST_upstream_ok _ _ _ _ _ _ R C F O J).
              ** left. reflexivity.
           ++ eexists. split; [reflexivity|]. split; [exact C|]. split.
              ** exact (POST_upstream_unreadable _ _ _ _ _ _ R C F O J).
              ** apply errorResponse_status.
        -- eexists. split; [reflexivity|]. split; [exact C|]. split.
           ++ exact (POST_upstream_not_ok _ _ _ _ _ R C F O).
           ++ right. right. reflexivity.
      * eexists. split; [reflexivity|]. split; [exact C|]. split.
        -- exact (POST_fetch_throws _ _ _ _ _ R C F).
        -- apply errorResponse_status.
  - left. exists e. split; [reflexivity|]. exact (POST_unreadable_request _ _ _ R).
Qed.

(** X7: whatever the request and whatever the network does, the handler
    answers (it never throws to its caller), with status 200, 400 or 500
    and no other, and it calls [fetch] at most once. *)
Theorem POST_always_answers (w : world) (request : nextRequest) :
  exists response,
    fst (runPOST w request) = Ok response
    /\ (responseStatus response = 200 \/ responseStatus response = 400
        \/ responseStatus response = 500)
    /\ length (snd (runPOST w request)) <= 1.
Proof.
  destruct (POST_outcome w request)
    as [[e [_ E]]|[[body [issue [_ [_ E]]]]|[body [m [r [_ [_ [E S]]]]]]]];
    rewrite E; simpl; eexists; repeat split;
    try apply errorResponse_status; try exact S; auto.
Qed.

(** The bodies the schema accepts. *)
Lemma check_accepts_iff (body : json) :
  (exists message, chatRequestSchema_check body = inr message)
  <-> exists fields message,
        body = JObject fields
        /\ getField fields (lit "message") = Some (JString message)
        /\ message <> [].
Proof.
  split.
  - intros [message C]. destruct (check_accepts _ _ C) as [NE [fields [-> G]]].
    exists fields, message. auto.
  - intros [fields [message [-> [G NE]]]]. exists message.
    apply check_message; assumption.
Qed.

(** X8: for a request whose body reads as JSON, [fetch] is called exactly
    when the body is an object whose [message] is a string that is not
    empty; every other body (no object, no [message], a [message] that is
    null, a number, an array...) is answered with status 400 and
    [Invalid request]. *)
Theorem POST_forwards_iff_valid (w : world) (request : nextRequest) (body : json) :
  requestJson request = Ok body ->
  let valid := exists fields message,
                 body = JObject fields
                 /\ getField fields (lit "message") = Some (JString message)
                 /\ message <> [] in
  (valid <-> snd (runPOST w request) <> [])
  /\ (~ valid ->
      exists details,
        runPOST w request
        = (Ok (mkResponse 400
                 (JObject [(lit "error", JString (lit "Invalid request"));
                           (lit "details", JString details)])),
           [])).
Proof.
  intros R valid.
  destruct (chatRequestSchema_check body) as [issue|message] eqn:C.
  - assert (NV : ~ valid).
    { intros V. apply check_accepts_iff in V as [m V]. congruence. }
    pose proof (POST_invalid_body w _ _ _ R C) as E. split.
    + rewrite E. simpl. split; [contradiction | congruence].
    + intros _. eexists. exact E.
  - assert (V : valid) by (apply check_accepts_iff; exists message; exact C).
    split; [|contradiction].
    split; [|intros _; exact V]. intros _.
    destruct (POST_outcome w request)
      as [[e [R' _]]|[[b [issue [R' [C' _]]]]|[b [m [r [_ [_ [E _]]]]]]]].
    + congruence.
    + rewrite R in R'. injection R' as <-. congruence.
    + rewrite E. simpl. discriminate.
Qed.

Lemma POST_forwards_iff_valid_witness :
  exists details,
    runPOST serviceDown (mkRequest (Ok (JArray [JString (lit "hello")])))
    = (Ok (mkResponse 400
             (JObject [(lit "error", JString (lit "Invalid request"));
                       (lit "details", JString details)])),
       []).
Proof.
  refine (proj2 (POST_forwards_iff_valid serviceDown
                   (mkRequest (Ok (JArray [JString (lit "hello")])))
                   (JArray [JString (lit "hello")]) eq_refl) _).
  intros [fields [message [E _]]]. discriminate.
Defined.

(** X9: an error that is neither a [ZodError] nor a [TypeError] about
    fetch is answered with status 500 and [Internal server error],
    wherever it was thrown: by reading the request (malformed JSON; no
    call of [fetch] is made), by [fetch], or by reading the body of an ok
    upstream response (a body that is no JSON). *)
Theorem POST_other_errors (w : world) (request : nextRequest) (e : jsError) :
  errClass e <> ZodError ->
  ~ isFetchTypeError e ->
  (requestJson request = Throw e ->
     runPOST w request = (Ok (mkResponse 500 internalErrorBody), []))
  /\ (fetchThrew w request e ->
        fst (runPOST w request) = Ok (mkResponse 500 internalErrorBody))
  /\ (forall up, fetchResolved w request up -> ok up = true ->
        jsonBody up = Throw e ->
        fst (runPOST w request) = Ok (mkResponse 500 internalErrorBody)).
Proof.
  intros Z F. pose proof (errorResponse_internal e Z F) as I. split; [|split].
  - intros R. rewrite (POST_unreadable_request _ _ _ R), I. reflexivity.
  - intros T. rewrite (fetchThrew_inv _ _ _ T). simpl. rewrite I. reflexivity.
  - intros up Res O J.
    destruct (fetchResolved_inv _ _ _ Res) as [body [m [R [C Fe]]]].
    rewrite (POST_upstream_unreadable _ _ _ _ _ _ R C Fe O J). simpl.
    rewrite I. reflexivity.
Qed.

Lemma POST_other_errors_witness :
  runPOST serviceDown (mkRequest (Throw (mkError SyntaxError (lit "Unexpected token i"))))
  = (Ok (mkResponse 500 internalErrorBody), []).
Proof.
  refine (proj1 (POST_other_errors serviceDown
                   (mkRequest (Throw (mkError SyntaxError (lit "Unexpected token i"))))
                   (mkError SyntaxError (lit "Unexpected token i")) _ _) eq_refl).
  - discriminate.
  - intros [C _]. discriminate.
Defined.

(** X10: the handler reads nothing of the body but [message]: two bodies
    with the same [message] get the same response and cause the same call
    of [fetch], whatever else they hold. *)
Theorem POST_reads_message_only (w : world) (fields1 fields2 : list (jsstring * json)) :
  getField fields1 (lit "message") = getField fields2 (lit "message") ->
  runPOST w (requestWith fields1) = runPOST w (requestWith fields2).
Proof.
  intros G.
  unfold runPOST, POST, tryCatch, bind, await, chatRequestSchema_parse,
    chatRequestSchema_check, requestWith. simpl. rewrite G. reflexivity.
Qed.

Lemma POST_reads_message_only_witness :
  runPOST serviceDown (requestWith [(lit "message", JString (lit "hi"))])
  = runPOST serviceDown
      (requestWith [(lit "user", JString (lit "admin"));
                    (lit "message", JString (lit "hi"));
                    (lit "model", JNumber (Double 4))]).
Proof.
  exact (POST_reads_message_only serviceDown
           [(lit "message", JString (lit "hi"))]
           [(lit "user", JString (lit "admin"));
            (lit "message", JString (lit "hi"));
            (lit "model", JNumber (Double 4))] eq_refl).
Defined.

End RouteMoreFacts.

(** ** frontend/lib/chat.ts, further *)

Section ChatMoreFacts.
Import Js Chat Route Client.

(** *** truncateMessage *)

(** X11: the result of [truncateMessage] is never more than three code
    units longer than the message, whatever [maxLength] is; for a natural
    [maxLength] it is longer than the message exactly when the message is
    one or two code units over the limit; from three over the limit on,
    the result has length [maxLength + 3]. *)
Theorem truncateMessage_length (message : jsstring) (maxLength : jsnumber) :
  length (truncateMessage message maxLength) <= length message + 3
  /\ (forall n, isNatural maxLength n ->
        (length message < length (truncateMessage message maxLength)
         <-> n < length message < n + 3)
        /\ (n + 3 <= length message ->
            length (truncateMessage message maxLength) = n + 3)).
Proof.
  split.
  - destruct (le (ofNat (length message)) maxLength) eqn:L.
    + unfold truncateMessage. rewrite L. lia.
    + destruct (truncateMessage_cut message maxLength L) as [k [K [E _]]].
      rewrite E, length_app, length_firstn, Nat.min_l by exact K. simpl. lia.
  - intros n Nat_.
    assert (C : length message <= n \/ n < length message) by lia.
    destruct C as [C|C].
    + assert (E : truncateMessage message maxLength = message).
      { unfold truncateMessage. rewrite (le_natural _ _ _ Nat_).
        apply Nat.leb_le in C. rewrite C. reflexivity. }
      rewrite E. split; [split; lia | lia].
    + assert (E : length (truncateMessage message maxLength) = n + 3).
      { unfold truncateMessage. rewrite (le_natural _ _ _ Nat_).
        destruct (Nat.leb_spec (length message) n); [lia|].
        rewrite substring_from_zero, (toInteger_natural _ _ Nat_). simpl.
        rewrite Z.max_l by lia. rewrite Nat2Z.id, (Nat.min_l n) by lia.
        rewrite length_app, length_firstn, Nat.min_l by lia. reflexivity. }
      rewrite E. split; [split; lia | lia].
Qed.

(** *** formatChatSources *)

Lemma join_app (sep : jsstring) (a b : list jsstring) :
  a <> [] -> b <> [] -> join sep (a ++ b) = join sep a ++ sep ++ join sep b.
Proof.
  intros A B. induction a as [|x a IH]; [contradiction|].
  destruct a as [|y a].
  - simpl. destruct b; [contradiction | reflexivity].
  - change (join sep ((x :: y :: a) ++ b)) with (x ++ sep ++ join sep ((y :: a) ++ b)).
    rewrite IH by discriminate.
    change (join sep (x :: y :: a)) with (x ++ sep ++ join sep (y :: a)).
    rewrite <- !app_assoc. reflexivity.
Qed.

(** X12: formatting distributes over the concatenation of two lists that
    are not empty: the label of the whole is the two labels joined by a
    comma and a space. *)
Theorem formatChatSources_app (upperMap : N -> list N) (a b : list jsstring) :
  a <> [] -> b <> [] ->
  formatChatSources upperMap (Some (a ++ b))
  = formatChatSources upperMap (Some a) ++ lit ", " ++ formatChatSources upperMap (Some b).
Proof.
  intros A B. unfold formatChatSources.
  destruct a as [|x a]; [contradiction|]. destruct b as [|y b]; [contradiction|].
  simpl Nat.eqb. cbv iota. rewrite map_app. apply join_app; discriminate.
Qed.

Lemma formatChatSources_app_witness :
  formatChatSources (fun c => [asciiUpper c])
                    (Some ([lit "faq#ebitda"] ++ [lit "system#unavailable"]))
  = formatChatSources (fun c => [asciiUpper c]) (Some [lit "faq#ebitda"])
      ++ lit ", "
      ++ formatChatSources (fun c => [asciiUpper c]) (Some [lit "system#unavailable"]).
Proof.
  refine (formatChatSources_app (fun c => [asciiUpper c])
            [lit "faq#ebitda"] [lit "system#unavailable"] _ _); discriminate.
Defined.

Lemma formatSource_empty_iff (upperMap : N -> list N) (source : jsstring) :
  formatSource upperMap source = [] <-> source = [].
Proof.
  split; [|intros ->; reflexivity].
  destruct (formatSource_renders upperMap source) as [topic|rest|s F S];
    [discriminate | discriminate | trivial].
Qed.

Lemma join_empty_iff (sep : jsstring) (parts : list jsstring) :
  sep <> [] -> (join sep parts = [] <-> parts = [] \/ parts = [[]]).
Proof.
  intros NE. split.
  - destruct parts as [|x [|y rest]]; simpl.
    + auto.
    + intros ->. auto.
    + intros E. apply app_eq_nil in E as [_ E]. apply app_eq_nil in E as [E _].
      contradiction.
  - intros [->| ->]; reflexivity.
Qed.

(** X13: the label is the empty string in three cases only: no list, the
    empty list, and the list holding just the empty string; two sources or
    more always give a label that is not empty. *)
Theorem formatChatSources_empty_iff (upperMap : N -> list N)
    (sources : option (list jsstring)) :
  formatChatSources upperMap sources = []
  <-> sources = None \/ sources = Some [] \/ sources = Some [[]].
Proof.
  destruct sources as [l|]; simpl; [|split; auto].
  destruct l as [|x l]; simpl Nat.eqb; cbv iota.
  - split; auto.
  - rewrite join_empty_iff by discriminate. split.
    + intros [E|E]; [discriminate|].
      simpl in E. injection E as E1 E2.
      apply formatSource_empty_iff in E1. subst x.
      destruct l; [auto | discriminate].
    + intros [E|[E|E]]; try discriminate. injection E as -> ->.
      right. reflexivity.
Qed.

(** *** generateMessageId *)

Lemma substr_length (s : jsstring) (start len : nat) :
  length (substr s start len) <= len
  /\ (length s <= start -> substr s start len = []).
Proof.
  unfold substr. split.
  - rewrite length_firstn. lia.
  - intros L. rewrite skipn_all2 by exact L. apply firstn_nil.
Qed.

(** X14: an id is the type, a hyphen, the clock in decimal, a hyphen and
    the random part: the code units of the random text from its third on,
    nine of them at most (so code unit [i] of the random part is code unit
    [i + 2] of the random text, for [i] below nine, and there are no
    others); when the random text has two code units or fewer (the draw 0
    prints as one digit) the random part is empty.  The type can be read
    back from the id, so the id of a user message never equals the id of
    a bot message.  At the clock 1736899200000 and the draw
    [0.4fzyo82mvyr] the id of a user message is
    [user-1736899200000-4fzyo82mv]. *)
Theorem generateMessageId_shape (type : messageType) (now : Z) (random36 : jsstring) :
  (exists suffix,
     generateMessageId type now random36
     = typeText type ++ lit "-" ++ decimalOf now ++ lit "-" ++ suffix
     /\ length suffix = Nat.min 9 (length random36 - 2)
     /\ (forall i, i < 9 -> nth_error suffix i = nth_error random36 (i + 2))
     /\ (length random36 <= 2 -> suffix = []))
  /\ generateMessageId user 1736899200000 (lit "0.4fzyo82mvyr")
     = lit "user-1736899200000-4fzyo82mv"
  /\ generateMessageId bot (-1) (lit "0") = lit "bot--1-"
  /\ (startsWith (generateMessageId type now random36) (lit "user-") = true
      <-> type = user)
  /\ (startsWith (generateMessageId type now random36) (lit "bot-") = true
      <-> type = bot)
  /\ (forall now' random36',
        generateMessageId user now random36 <> generateMessageId bot now' random36').
Proof.
  split; [|split; [|split; [|split; [|split]]]].
  - exists (substr random36 2 9). split; [reflexivity|]. split; [|split].
    + unfold substr. rewrite length_firstn, length_skipn. reflexivity.
    + intros i I. unfold substr. rewrite nth_error_firstn, nth_error_skipn.
      apply Nat.ltb_lt in I. rewrite I. f_equal. lia.
    + apply substr_length.
  - vm_compute. reflexivity.
  - vm_compute. reflexivity.
  - destruct type; simpl; split; trivial; discriminate.
  - destruct type; simpl; split; trivial; discriminate.
  - intros now' random36' E. discriminate.
Qed.

End ChatMoreFacts.

(** ** sendChatMessage *)

Section ClientFacts.
Import Js Chat Route Client.

(** X15: [sendChatMessage] calls [fetch] once, with a POST of
    [JSON.stringify({ message })] to [/api/chat]; it resolves exactly when
    [fetch] resolved with an ok response whose body reads as JSON, and
    then with that value; when [fetch] itself throws, that error is what
    it throws. *)
Theorem sendChatMessage_resolves_iff (b : browser) (message : jsstring) :
  snd (sendChatMessage b message)
  = [mkCall (lit "/api/chat")
            (mkInit (lit "POST") [(lit "Content-Type", lit "application/json")]
                    (stringifyChatMessage message))]
  /\ (forall data,
        fst (sendChatMessage b message) = Ok data
        <-> exists response,
              apiFetch b (apiCall message) = Ok response
              /\ apiOk response = true
              /\ apiJson response = Ok data)
  /\ (forall e, apiFetch b (apiCall message) = Throw e ->
        fst (sendChatMessage b message) = Throw e).
Proof.
  split; [reflexivity|]. unfold sendChatMessage. simpl. split.
  - intros data. destruct (apiFetch b (apiCall message)) as [response|e].
    + destruct (apiOk response) eqn:O; simpl.
      * split.
        -- intros J. exists response. auto.
        -- intros [r [E [_ J]]]. injection E as <-. exact J.
      * split; [discriminate|].
        intros [r [E [O' _]]]. injection E as <-. congruence.
    + split; [discriminate | intros [r [E _]]; discriminate].
  - intros e ->. reflexivity.
Qed.

Lemma sendChatMessage_not_ok_throws (b : browser) (message : jsstring)
    (response : apiResponse) :
  apiFetch b (apiCall message) = Ok response ->
  apiOk response = false ->
  fst (sendChatMessage b message) = Throw (throwForStatus b response).
Proof. intros F O. unfold sendChatMessage. simpl. rewrite F, O. reflexivity. Qed.

(** X16: on a response that is not ok, [sendChatMessage] always throws.
    The message of the error is the [error] field of the body when that is
    a string that is not empty; [Network error] when the body does not
    read as JSON; the text with the status when the body is an object with
    no [error] field or an empty one.  A body that is the JSON [null]
    makes the property read itself throw a [TypeError]. *)
Theorem sendChatMessage_not_ok (b : browser) (message : jsstring)
    (response : apiResponse) :
  apiFetch b (apiCall message) = Ok response ->
  apiOk response = false ->
  exists e,
    fst (sendChatMessage b message) = Throw e
    /\ (forall fields text,
          apiJson response = Ok (JObject fields) ->
          getField fields (lit "error") = Some (JString text) -> text <> [] ->
          e = mkError PlainError text)
    /\ (forall cause, apiJson response = Throw cause ->
          e = mkError PlainError (lit "Network error"))
    /\ (forall fields,
          apiJson response = Ok (JObject fields) ->
          getField fields (lit "error") = None
          \/ getField fields (lit "error") = Some (JString []) ->
          e = mkError PlainError
                (lit "HTTP error! status: " ++ digitsOf (apiStatus response)))
    /\ (apiJson response = Ok JNull ->
          e = mkError TypeError (nullReadMessage b (lit "error"))).
Proof.
  intros F O. exists (throwForStatus b response).
  split; [exact (sendChatMessage_not_ok_throws _ _ _ F O)|].
  unfold throwForStatus. split; [|split; [|split]].
  - intros fields text J G NE. rewrite J. simpl. rewrite G. simpl.
    destruct text; [contradiction | reflexivity].
  - intros cause J. rewrite J. reflexivity.
  - intros fields J [G|G]; rewrite J; simpl; rewrite G; reflexivity.
  - intros J. rewrite J. reflexivity.
Qed.

Lemma sendChatMessage_not_ok_witness :
  exists e,
    fst (sendChatMessage (browserOver (serviceAnswering 503 JNull) (lit "hi")) (lit "hi"))
    = Throw e.
Proof.
  destruct (sendChatMessage_not_ok (browserOver (serviceAnswering 503 JNull) (lit "hi"))
              (lit "hi") (asApiResponse (mkResponse 500 internalErrorBody))
              eq_refl eq_refl) as [e [T _]].
  exists e. exact T.
Defined.

(** *** Through the route handler *)

Lemma servedBy_response (w : world) (b : browser) (message : jsstring) r calls :
  servedBy w b message ->
  runPOST w (requestWith [(lit "message", JString message)]) = (Ok r, calls) ->
  apiFetch b (apiCall message) = Ok (asApiResponse r).
Proof. unfold servedBy. intros S E. rewrite E in S. exact S. Qed.

Lemma message_field (message : jsstring) :
  getField [(lit "message", JString message)] (lit "message") = Some (JString message).
Proof. reflexivity. Qed.

(** What the client's [fetch] resolves with, for each way the handler's
    own [fetch] can end. *)
Lemma served_empty (w : world) (b : browser) :
  servedBy w b [] ->
  apiFetch b (apiCall [])
  = Ok (asApiResponse
          (mkResponse 400
             (invalidRequestBody
                (zodErrorMessage w (MessageTooSmall (lit "Message cannot be empty")))))).
Proof.
  intros S.
  exact (servedBy_response _ _ _ _ _ S
           (POST_invalid_body w (requestWith [(lit "message", JString [])]) _ _
              eq_refl (check_empty_message _ (message_field [])))).
Qed.

Lemma served_unreachable (w : world) (b : browser) (message : jsstring) e :
  servedBy w b message -> message <> [] ->
  fetchImpl w (chatCall w message) = Throw e -> isFetchTypeError e ->
  apiFetch b (apiCall message) = Ok (asApiResponse (mkResponse 200 mockResponseBody)).
Proof.
  intros S NE T FT.
  pose proof (POST_fetch_throws w (requestWith [(lit "message", JString message)])
                _ _ _ eq_refl (check_message _ _ (message_field message) NE) T) as E.
  rewrite (proj2 (errorResponse_mock_iff e) FT) in E.
  exact (servedBy_response _ _ _ _ _ S E).
Qed.

Lemma served_not_ok (w : world) (b : browser) (message : jsstring) up :
  servedBy w b message -> message <> [] ->
  fetchImpl w (chatCall w message) = Ok up -> ok up = false ->
  apiFetch b (apiCall message) = Ok (asApiResponse (mkResponse 500 internalErrorBody)).
Proof.
  intros S NE U O.
  exact (servedBy_response _ _ _ _ _ S
           (POST_upstream_not_ok w (requestWith [(lit "message", JString message)])
              _ _ _ eq_refl (check_message _ _ (message_field message) NE) U O)).
Qed.

Lemma served_ok (w : world) (b : browser) (message : jsstring) up data :
  servedBy w b message -> message <> [] ->
  fetchImpl w (chatCall w message) = Ok up -> ok up = true -> jsonBody up = Ok data ->
  apiFetch b (apiCall message) = Ok (asApiResponse (mkResponse 200 (serialise data))).
Proof.
  intros S NE U O J.
  exact (servedBy_response _ _ _ _ _ S
           (POST_upstream_ok w (requestWith [(lit "message", JString message)])
              _ _ _ _ eq_refl (check_message _ _ (message_field message) NE) U O J)).
Qed.

Lemma sendChatMessage_on (b : browser) (message : jsstring) (r : nextResponse) :
  apiFetch b (apiCall message) = Ok (asApiResponse r) ->
  fst (sendChatMessage b message)
  = if apiOk (asApiResponse r) then Ok (responseBody r)
    else Throw (throwForStatus b (asApiResponse r)).
Proof.
  intros F. unfold sendChatMessage. cbn [fst]. rewrite F.
  destruct (apiOk (asApiResponse r)); reflexivity.
Qed.

(** X17: [sendChatMessage] against the route handler.  The empty message
    is refused with the error [Invalid request] (the details of the
    validation are dropped).  For any other message: when the Python
    service cannot be reached the promise resolves, with the mock
    fallback; when the Python service answers with a status that is not
    ok it rejects with [Internal server error], whatever that status was;
    when the Python service answers ok, it resolves with the value the
    service sent as the handler's [JSON.stringify] writes it: the value
    itself when it holds no infinity and no negative zero, and [null] for
    a body that is one number too large for a double. *)
Theorem sendChatMessage_through_route (w : world) (b : browser) (message : jsstring) :
  servedBy w b message ->
  (message = [] ->
     fst (sendChatMessage b message) = Throw (mkError PlainError (lit "Invalid request")))
  /\ (message <> [] ->
        (forall e, fetchImpl w (chatCall w message) = Throw e -> isFetchTypeError e ->
           fst (sendChatMessage b message) = Ok mockResponseBody)
        /\ (forall up, fetchImpl w (chatCall w message) = Ok up -> ok up = false ->
              fst (sendChatMessage b message)
              = Throw (mkError PlainError (lit "Internal server error")))
        /\ (forall up data, fetchImpl w (chatCall w message) = Ok up -> ok up = true ->
              jsonBody up = Ok data ->
              fst (sendChatMessage b message) = Ok (serialise data)
              /\ (writtenAsIs data = true -> fst (sendChatMessage b message) = Ok data)
              /\ (forall negative, data = JNumber (Infinite negative) ->
                    fst (sendChatMessage b message) = Ok JNull))).
Proof.
  intros S. split.
  - intros ->. rewrite (sendChatMessage_on _ _ _ (served_empty _ _ S)). reflexivity.
  - intros NE. split; [|split].
    + intros e T FT.
      rewrite (sendChatMessage_on _ _ _ (served_unreachable _ _ _ _ S NE T FT)).
      reflexivity.
    + intros up U O.
      rewrite (sendChatMessage_on _ _ _ (served_not_ok _ _ _ _ S NE U O)).
      reflexivity.
    + intros up data U O J.
      rewrite (sendChatMessage_on _ _ _ (served_ok _ _ _ _ _ S NE U O J)).
      split; [reflexivity|]. split.
      * intros W. cbn [asApiResponse apiOk responseBody responseStatus].
        rewrite (serialise_writtenAsIs _ W). reflexivity.
      * intros negative ->. reflexivity.
Qed.

Lemma servedBy_browserOver (w : world) (message : jsstring) :
  servedBy w (browserOver w message) message.
Proof.
  unfold servedBy, browserOver. simpl.
  destruct (fst (runPOST w (requestWith [(lit "message", JString message)])));
    reflexivity.
Qed.

Lemma sendChatMessage_through_route_witness :
  fst (sendChatMessage (browserOver serviceDown (lit "What is EBITDA?"))
                       (lit "What is EBITDA?"))
  = Ok mockResponseBody.
Proof.
  refine (proj1 (proj2 (sendChatMessage_through_route serviceDown
                          (browserOver serviceDown (lit "What is EBITDA?"))
                          (lit "What is EBITDA?")
                          (servedBy_browserOver serviceDown (lit "What is EBITDA?"))) _)
                (mkError TypeError (lit "fetch failed")) eq_refl _).
  - discriminate.
  - split; reflexivity.
Defined.

End ClientFacts.

(** ** components/chat/chat-widget.tsx *)

Section WidgetFacts.
Import Js Chat Route Client Widget.

Lemma validateChatMessage_trimmed (message : jsstring) :
  validateChatMessage message = true -> trim message <> [].
Proof.
  unfold validateChatMessage. rewrite andb_true_iff, Nat.ltb_lt.
  intros [L _] E. rewrite E in L. simpl in L. lia.
Qed.

Lemma trim_blank (message : jsstring) :
  Nat.eqb (length (trim message)) 0 = true <-> trim message = [].
Proof. rewrite Nat.eqb_eq. destruct (trim message); simpl; split; congruence. Qed.

Lemma sendMessage_unfold (b : browser) (r : readings) (message : jsstring) (w : widget) :
  trim message <> [] ->
  sendMessage b r message w
  = (mkWidget (applyUpdate (settleUpdate b r (fst (sendChatMessage b message)))
                           (addUserMessage (userEntry r message) (state w)))
              (lit ""),
     [apiCall message]).
Proof.
  intros NE. unfold sendMessage.
  destruct (Nat.eqb (length (trim message)) 0) eqn:E;
    [apply trim_blank in E; contradiction|].
  reflexivity.
Qed.

(** X18: [sendMessage] guards itself: a message that is empty once
    trimmed leaves the messages, the flags and the input as they are and
    calls nothing; any other message causes exactly one call, carrying
    the message as it was typed, not trimmed. *)
Theorem sendMessage_blank (b : browser) (r : readings) (message : jsstring) (w : widget) :
  (trim message = [] -> sendMessage b r message w = (w, []))
  /\ (trim message <> [] -> snd (sendMessage b r message w) = [apiCall message])
  /\ (snd (sendMessage b r message w) = [] <-> trim message = []).
Proof.
  assert (B : trim message = [] -> sendMessage b r message w = (w, [])).
  { intros E. unfold sendMessage. rewrite (proj2 (trim_blank message) E). reflexivity. }
  assert (S : trim message <> [] -> snd (sendMessage b r message w) = [apiCall message]).
  { intros NE. rewrite (sendMessage_unfold _ _ _ _ NE). reflexivity. }
  split; [exact B|]. split; [exact S|]. split.
  - intros E. destruct (trim message) as [|c t] eqn:T; [reflexivity|].
    rewrite S in E by discriminate. discriminate.
  - intros E. rewrite (B E). reflexivity.
Qed.

Lemma sendMessage_blank_witness :
  sendMessage (browserOver serviceDown (lit "   ")) sampleReadings (lit "   ") initialWidget
  = (initialWidget, []).
Proof.
  exact (proj1 (sendMessage_blank (browserOver serviceDown (lit "   ")) sampleReadings
                  (lit "   ") initialWidget) eq_refl).
Defined.

(** X19: when the request succeeds with a value that is not [null], the
    widget ends with the messages it had, then the user's message as it
    was typed (not trimmed), then the bot's message holding the [answer]
    and [sources] of the response; it is no longer loading, shows no
    error, the input is cleared, and one call was made. *)
Theorem sendMessage_success (b : browser) (r : readings) (message : jsstring)
    (w : widget) (data : json) :
  trim message <> [] ->
  fst (sendChatMessage b message) = Ok data ->
  data <> JNull ->
  exists answer sources,
    getProperty b data (lit "answer") = Ok answer
    /\ getProperty b data (lit "sources") = Ok sources
    /\ sendMessage b r message w
       = (mkWidget
            (mkState
               (messages (state w)
                  ++ [mkEntry (generateMessageId user (userNow r) (userRandom r)) user
                              (Some (JString message)) None (userDate r);
                      mkEntry (generateMessageId bot (botNow r) (botRandom r)) bot
                              answer sources (botDate r)])
               false None)
            (lit ""),
          [apiCall message]).
Proof.
  intros NE S NN. rewrite (sendMessage_unfold _ _ _ _ NE), S.
  assert (P : forall key, exists v, getProperty b data key = Ok v).
  { intros key. destruct data; try (eexists; reflexivity). contradiction. }
  destruct (P (lit "answer")) as [answer A]. destruct (P (lit "sources")) as [sources So].
  exists answer, sources. split; [exact A|]. split; [exact So|].
  unfold settleUpdate, botEntry. rewrite A, So. simpl.
  unfold addBotMessage, addUserMessage, userEntry. simpl.
  rewrite <- app_assoc. reflexivity.
Qed.

Lemma sendMessage_success_witness :
  exists answer sources,
    sendMessage (browserOver serviceDown (lit "What is EBITDA?")) sampleReadings
                (lit "What is EBITDA?") initialWidget
    = (mkWidget
         (mkState
            [mkEntry (generateMessageId user 1736899200000 (lit "0.4fzyo82mvyr")) user
                     (Some (JString (lit "What is EBITDA?"))) None 1736899200000;
             mkEntry (generateMessageId bot 1736899201000 (lit "0.a1b2c3d4e5f")) bot
                     answer sources 1736899201000]
            false None)
         (lit ""),
       [apiCall (lit "What is EBITDA?")]).
Proof.
  destruct (sendMessage_success (browserOver serviceDown (lit "What is EBITDA?"))
              sampleReadings (lit "What is EBITDA?") initialWidget mockResponseBody)
    as [answer [sources [_ [_ E]]]].
  - discriminate.
  - reflexivity.
  - discriminate.
  - exists answer, sources. exact E.
Defined.

(** X20: when the request fails, the user's message stays in the list, no
    bot message is added, the widget is no longer loading and shows the
    message of the error; the same happens when the request succeeds with
    the JSON [null], whose properties cannot be read. *)
Theorem sendMessage_failure (b : browser) (r : readings) (message : jsstring)
    (w : widget) :
  trim message <> [] ->
  let failed text :=
    sendMessage b r message w
    = (mkWidget
         (mkState (messages (state w) ++ [userEntry r message]) false (Some text))
         (lit ""),
       [apiCall message]) in
  (forall e, fst (sendChatMessage b message) = Throw e -> failed (errMessage e))
  /\ (fst (sendChatMessage b message) = Ok JNull ->
      failed (nullReadMessage b (lit "answer"))).
Proof.
  intros NE failed. subst failed. split.
  - intros e T. rewrite (sendMessage_unfold _ _ _ _ NE), T. reflexivity.
  - intros T. rewrite (sendMessage_unfold _ _ _ _ NE), T. reflexivity.
Qed.

Lemma sendMessage_failure_witness :
  sendMessage (browserOver (serviceAnswering 503 JNull) (lit "hi")) sampleReadings
              (lit "hi") initialWidget
  = (mkWidget
       (mkState [userEntry sampleReadings (lit "hi")] false
                (Some (lit "Internal server error")))
       (lit ""),
     [apiCall (lit "hi")]).
Proof.
  refine (proj1 (sendMessage_failure
                   (browserOver (serviceAnswering 503 JNull) (lit "hi"))
                   sampleReadings (lit "hi") initialWidget _)
                (mkError PlainError (lit "Internal server error")) eq_refl).
  discriminate.
Defined.

(** *** Updates in any order *)

Lemma applyUpdate_appends (u : update) (prev : widgetState) :
  exists added,
    messages (applyUpdate u prev) = messages prev ++ added /\ length added <= 1.
Proof.
  destruct u as [m|m|text]; simpl.
  - exists [m]. split; [reflexivity | simpl; lia].
  - exists [m]. split; [reflexivity | simpl; lia].
  - exists []. split; [symmetry; apply app_nil_r | simpl; lia].
Qed.

(** X21: the list of messages only grows: after any sequence of the
    updates the component makes, in any order, the messages held before
    are still there, first and in their order, and at most one message was
    added per update; the widget is loading afterwards exactly when the
    last update added a user message. *)
Theorem applyUpdates_append_only (us : list update) (prev : widgetState) :
  (exists added,
     messages (applyUpdates us prev) = messages prev ++ added
     /\ length added <= length us)
  /\ (forall u earlier, us = earlier ++ [u] ->
        isLoading (applyUpdates us prev)
        = match u with AddUserMessage _ => true | _ => false end).
Proof.
  split.
  - unfold applyUpdates. revert prev.
    induction us as [|u us IH]; intros prev; simpl.
    + exists []. split; [symmetry; apply app_nil_r | simpl; lia].
    + destruct (applyUpdate_appends u prev) as [a1 [E1 L1]].
      destruct (IH (applyUpdate u prev)) as [a2 [E2 L2]].
      exists (a1 ++ a2). rewrite E2, E1, <- app_assoc, length_app.
      split; [reflexivity | lia].
  - intros u earlier ->. unfold applyUpdates. rewrite fold_left_app. simpl.
    destruct u; reflexivity.
Qed.

(** *** Submitting the form *)

(** X22: submitting the form calls the API exactly when
    [validateChatMessage] accepts the input, and then with the input as it
    is, after which the input is cleared; a refused input (blank, or
    longer than 1000) changes nothing.  Whether a request is already
    under way plays no part. *)
Theorem handleSubmit_validates (b : browser) (r : readings) (w : widget) :
  (validateChatMessage (inputMessage w) = true ->
     snd (handleSubmit b r w) = [apiCall (inputMessage w)]
     /\ inputMessage (fst (handleSubmit b r w)) = lit "")
  /\ (validateChatMessage (inputMessage w) = false -> handleSubmit b r w = (w, []))
  /\ (snd (handleSubmit b r w) <> [] <-> validateChatMessage (inputMessage w) = true)
  /\ (sendDisabled w = false -> snd (handleSubmit b r w) = [apiCall (inputMessage w)]).
Proof.
  assert (A : validateChatMessage (inputMessage w) = true ->
              snd (handleSubmit b r w) = [apiCall (inputMessage w)]
              /\ inputMessage (fst (handleSubmit b r w)) = lit "").
  { intros V. unfold handleSubmit. rewrite V.
    apply validateChatMessage_trimmed in V.
    rewrite (sendMessage_unfold _ _ _ _ V). split; reflexivity. }
  assert (R : validateChatMessage (inputMessage w) = false -> handleSubmit b r w = (w, [])).
  { intros V. unfold handleSubmit. rewrite V. reflexivity. }
  split; [exact A|]. split; [exact R|]. split; [split|].
  - intros NE. destruct (validateChatMessage (inputMessage w)); [reflexivity|].
    rewrite R in NE by reflexivity. contradiction.
  - intros V. rewrite (proj1 (A V)). discriminate.
  - unfold sendDisabled. intros D. apply orb_false_iff in D as [_ D].
    apply negb_false_iff in D. exact (proj1 (A D)).
Qed.

(** *** From the form to the Python service *)

(** X23: the form against the route handler.  With an input the form
    accepts: when the Python service cannot be reached, the widget shows
    the user's message and then a bot message with the apology of the mock
    fallback and the source [system#unavailable], and no error; when the
    Python service answers with a status that is not ok, it shows the
    user's message and the error [Internal server error]. *)
Theorem handleSubmit_through_route (w : world) (b : browser) (r : readings)
    (wd : widget) :
  validateChatMessage (inputMessage wd) = true ->
  servedBy w b (inputMessage wd) ->
  (forall e, fetchImpl w (chatCall w (inputMessage wd)) = Throw e -> isFetchTypeError e ->
     state (fst (handleSubmit b r wd))
     = mkState
         (messages (state wd)
            ++ [userEntry r (inputMessage wd);
                mkEntry (generateMessageId bot (botNow r) (botRandom r)) bot
                  (Some (JString (lit "I'm sorry, the chat service is currently unavailable. Please try again later.")))
                  (Some (JArray [JString (lit "system#unavailable")]))
                  (botDate r)])
         false None)
  /\ (forall up, fetchImpl w (chatCall w (inputMessage wd)) = Ok up -> ok up = false ->
        state (fst (handleSubmit b r wd))
        = mkState (messages (state wd) ++ [userEntry r (inputMessage wd)]) false
                  (Some (lit "Internal server error"))).
Proof.
  intros V S. pose proof (validateChatMessage_trimmed _ V) as T.
  assert (NE : inputMessage wd <> []).
  { intros E. rewrite E in T. apply T. reflexivity. }
  unfold handleSubmit. rewrite V, (sendMessage_unfold _ _ _ _ T).
  cbn [fst state]. split.
  - intros e Th FT.
    rewrite (sendChatMessage_on _ _ _ (served_unreachable _ _ _ _ S NE Th FT)).
    simpl. unfold addBotMessage, addUserMessage. simpl.
    rewrite <- app_assoc. reflexivity.
  - intros up U O.
    rewrite (sendChatMessage_on _ _ _ (served_not_ok _ _ _ _ S NE U O)).
    reflexivity.
Qed.

Lemma handleSubmit_through_route_witness :
  state (fst (handleSubmit (browserOver (serviceAnswering 503 JNull) (lit "What is ROE?"))
                           sampleReadings
                           (mkWidget (mkState [] false None) (lit "What is ROE?"))))
  = mkState [userEntry sampleReadings (lit "What is ROE?")] false
            (Some (lit "Internal server error")).
Proof.
  refine (proj2 (handleSubmit_through_route (serviceAnswering 503 JNull)
                   (browserOver (serviceAnswering 503 JNull) (lit "What is ROE?"))
                   sampleReadings
                   (mkWidget (mkState [] false None) (lit "What is ROE?"))
                   eq_refl
                   (servedBy_browserOver (serviceAnswering 503 JNull) (lit "What is ROE?")))
                (mkUpstream false 503 (Ok JNull)) eq_refl eq_refl).
Defined.

End WidgetFacts.

(** ** lib/query/articles.ts, further *)

Section ArticleOrderFacts.
Import Js Articles.

(** X24: the direction of the sort changes the order of the result and
    nothing else: over a client that answers [findMany] with the rows of
    the table in date order, the articles returned for [asc] are those
    returned for [desc], each as often. *)
Theorem getArticles_direction (table : list Article)
    (findMany : sortOrder -> list Article) (toLowerCase : jsstring -> jsstring)
    (query : jsstring) :
  answersOrderBy table findMany ->
  Permutation (getArticles findMany toLowerCase query asc)
              (getArticles findMany toLowerCase query desc)
  /\ length (getArticles findMany toLowerCase query asc)
     = length (getArticles findMany toLowerCase query desc).
Proof.
  intros P.
  assert (E : Permutation (getArticles findMany toLowerCase query asc)
                          (getArticles findMany toLowerCase query desc)).
  { destruct (P asc) as [Pa _]. destruct (P desc) as [Pd _].
    pose proof (Permutation_trans Pa (Permutation_sym Pd)) as PP.
    destruct query as [|c q]; [exact PP|].
    rewrite !getArticles_query by discriminate. apply filter_Permutation, PP. }
  split; [exact E | apply Permutation_length, E].
Qed.

Lemma getArticles_direction_witness :
  Permutation (getArticles (sortingClient sampleTable) asciiLower (lit "e") asc)
              (getArticles (sortingClient sampleTable) asciiLower (lit "e") desc).
Proof.
  exact (proj1 (getArticles_direction sampleTable (sortingClient sampleTable) asciiLower
                  (lit "e") (sortingClient_answers sampleTable))).
Defined.

End ArticleOrderFacts.
